(** * babySNARK: a shallow embedding of [babysnark.py]

    The protocol functions [vanishing_poly], [babysnark_setup],
    [babysnark_prover] and [babysnark_verifier] are embedded from the Python
    source.  The field, the polynomial class and the pairing group are
    imported by the script from modules that are not part of the sources at
    hand; they are modelled from the specification (sections 3, 4.1 and 6)
    and marked as such.

    Python exceptions are values of [exn], tagged with the source line that
    raises them; a computation that may raise returns a [result].  Module
    level variables ([tau], [beta], [gamma], [a], [n_stmt]) and the state of
    the random source are the fields of [world]. *)

From HB Require Import structures.
From mathcomp Require Import boot algebra.
From Stdlib Require Import Lia.

Set Implicit Arguments.
Unset Strict Implicit.
Unset Printing Implicit Defensive.

Import GRing.Theory.
Local Open Scope ring_scope.

(** ** Exceptions and results *)

Inductive exn : Type :=
  | AssertionError (line : nat)
  | IndexError (line : nat)
  | ZeroDivisionError (line : nat).

Inductive result (A : Type) : Type :=
  | Ok (x : A)
  | Raise (e : exn).

Arguments Ok {A} x.
Arguments Raise {A} e.

Definition bind {A B : Type} (c : result A) (k : A -> result B) : result B :=
  match c with
  | Ok x => k x
  | Raise e => Raise e
  end.

Notation "x <- c ;; k" := (bind c (fun x => k))
  (at level 100, c at next level, right associativity).
Notation "c ;;; k" := (bind c (fun _ => k))
  (at level 100, right associativity).

(** [assert e] on source line [line]. *)
Definition assert (line : nat) (b : bool) : result unit :=
  if b then Ok tt else Raise (AssertionError line).

(** [s[i]] for a list [s] and [i >= 0], on source line [line]. *)
Definition getitem {T : Type} (line : nat) (s : seq T) (i : nat) : result T :=
  match drop i s with
  | x :: _ => Ok x
  | [::] => Raise (IndexError line)
  end.

(** [range(lo, hi)]; empty when [hi <= lo]. *)
Definition range (lo hi : nat) : seq nat := iota lo (hi - lo).

(** A [for] loop that threads an accumulator and may raise. *)
Fixpoint foldM {A B : Type} (f : A -> B -> result A) (acc : A) (s : seq B)
  : result A :=
  match s with
  | [::] => Ok acc
  | x :: s' => acc' <- f acc x ;; foldM f acc' s'
  end.

(** A list comprehension [[f(i) for i in s]] whose body may raise. *)
Fixpoint mapM {A B : Type} (f : A -> result B) (s : seq A) : result (seq B) :=
  match s with
  | [::] => Ok [::]
  | x :: s' => y <- f x ;; ys <- mapM f s' ;; Ok (y :: ys)
  end.

(** [s[k:]] for a Python integer [k]: a negative [k] counts from the end,
    and out-of-range bounds are clamped; a slice never raises. *)
Definition slice_from {T : Type} (k : int) (s : seq T) : seq T :=
  match k with
  | Posz j => drop j s
  | Negz j => drop (size s - j.+1) s
  end.

Section Model.

Variable F : fieldType.

(** ** Polynomials in coefficient form *)

(** Modelled from the spec: the polynomial class [Poly] of
    [finitefield.polynomial], which the script imports and which is not part
    of the sources.  Section 3: a polynomial is the sequence of its
    coefficients, index [i] holding the coefficient of [X^i], with trailing
    zero coefficients trimmed.  Section 4.1: addition, subtraction, scalar
    multiplication, multiplication by convolution, Euclidean division,
    Lagrange interpolation, and equality on trimmed sequences; every
    operation returns a trimmed sequence. *)
Definition poly := seq F.

Definition coefficients (p : poly) : seq F := p.

(** Modelled from the spec: trimming of trailing zero coefficients. *)
Fixpoint strip (s : seq F) : seq F :=
  match s with
  | [::] => [::]
  | c :: s' =>
      let r := strip s' in
      if nilp r && (c == 0) then [::] else c :: r
  end.

(** Modelled from the spec: the constructor [Poly(c)] from a coefficient
    list. *)
Definition mkPoly (c : seq F) : poly := strip c.

Fixpoint add_coeffs (p q : seq F) : seq F :=
  match p, q with
  | [::], _ => q
  | _, [::] => p
  | a :: p', b :: q' => (a + b) :: add_coeffs p' q'
  end.

(** Modelled from the spec: [p + q]. *)
Definition poly_add (p q : poly) : poly := strip (add_coeffs p q).

(** Modelled from the spec: [c * p] for a field element [c]. *)
Definition poly_scale (c : F) (p : poly) : poly := strip [seq c * x | x <- p].

(** Modelled from the spec: [p - q]. *)
Definition poly_sub (p q : poly) : poly :=
  strip (add_coeffs p [seq - x | x <- q]).

Fixpoint mul_coeffs (p q : seq F) : seq F :=
  match p with
  | [::] => [::]
  | a :: p' => add_coeffs [seq a * x | x <- q] (0 :: mul_coeffs p' q)
  end.

(** Modelled from the spec: [p * q], the convolution of the coefficient
    sequences. *)
Definition poly_mul (p q : poly) : poly := strip (mul_coeffs p q).

(** The monomial [c X^k]. *)
Definition monomial (k : nat) (c : F) : poly := strip (ncons k 0 [:: c]).

(** Modelled from the spec: Euclidean division.  The loop runs while the
    remainder has at least the degree of the divisor, each round cancelling
    the leading term of the remainder; [fuel] bounds the number of rounds. *)
Fixpoint divmod_loop (fuel : nat) (d q r : poly) : poly * poly :=
  match fuel with
  | 0%N => (q, r)
  | fuel'.+1 =>
      if (size d <= size r)%N then
        let mono := monomial (size r - size d) (last 0 r / last 0 d) in
        divmod_loop fuel' d (poly_add q mono) (poly_sub r (poly_mul mono d))
      else (q, r)
  end.

Definition poly_divmod (p d : poly) : poly * poly :=
  divmod_loop (size p) d [::] p.

(** Modelled from the spec: [p / d]; dividing by the zero polynomial is an
    error. *)
Definition poly_div (line : nat) (p d : poly) : result poly :=
  if nilp d then Raise (ZeroDivisionError line) else Ok (poly_divmod p d).1.

(** Modelled from the spec: evaluation [p(x)]. *)
Definition poly_eval (p : poly) (x : F) : F :=
  foldr (fun c acc => acc * x + c) 0 p.

(** The [i]-th Lagrange basis polynomial over the points [xs]: the product
    over the other positions [j] of [(X - x_j) / (x_i - x_j)]. *)
Definition lagrange_basis (xs : seq F) (i : nat) : poly :=
  foldl (fun acc j =>
           if j == i then acc
           else poly_mul acc
                  (poly_scale (nth 0 xs i - nth 0 xs j)^-1
                     (mkPoly [:: - nth 0 xs j; 1])))
        (mkPoly [:: 1]) (iota 0 (size xs)).

(** Modelled from the spec: [Poly.interpolate(xs, ys)], Lagrange
    interpolation: the sum over the paired points of [y_i] times the [i]-th
    basis polynomial.  The spec asks for distinct points; on repeated
    points the inverse of zero is taken as zero, as the field does. *)
Definition interpolate (xs ys : seq F) : poly :=
  foldl (fun f i => poly_add f (poly_scale (nth 0 ys i) (lagrange_basis xs i)))
        (mkPoly [:: 0]) (iota 0 (minn (size xs) (size ys))).

(** [vanishing_poly(S)]: the product of [X - s] over [s] in [S]. *)
Definition vanishing_poly (S : seq F) : poly :=
  foldl (fun p s => poly_mul p (mkPoly [:: - s; 1])) (mkPoly [:: 1]) S.

(** ** Square span programs *)

(** The constraint matrix [U], a two-dimensional numpy array: its shape and
    its entries [U[i,k]]. *)
Record ndarray : Type := Ndarray {
  nrows : nat;
  ncols : nat;
  entry : nat -> nat -> F
}.

Definition shape (U : ndarray) : nat * nat := (nrows U, ncols U).

(** [U[:,k]], column [k] of [U]. *)
Definition column (U : ndarray) (k : nat) : seq F :=
  [seq entry U i k | i <- range 0 (nrows U)].

(** Row [i] of the product [U.dot(a)]. *)
Definition dot (U : ndarray) (a : seq F) (i : nat) : F :=
  foldr (fun k acc => entry U i k * nth 0 a k + acc) 0 (range 0 (ncols U)).

(** The predicate to prove, [(U.dot(a) * U.dot(a) == 1).all()]. *)
Definition ssp (U : ndarray) (a : seq F) : bool :=
  all (fun i => dot U a i * dot U a i == 1) (range 0 (nrows U)).

(** The roots [rs = [Fp(1+i) for i in range(m)]], one per gate. *)
Definition rs (m : nat) : seq F := [seq (1 + i)%:R | i <- range 0 m].

(** ** The pairing group *)

(** Modelled from the spec: the symmetric pairing group [Group] of
    [ssbls12], which the script imports and which is not part of the
    sources.  Section 6: scalar multiplication by a field element, group
    addition and a pairing into the target group; glossary: the pairing is
    bilinear, [pair(aP, bQ) = pair(P, Q)^(ab)]. *)
Record pairing_group : Type := PairingGroup {
  grp : eqType;
  gt : eqType;
  G : grp;
  smul : grp -> F -> grp;
  gadd : grp -> grp -> grp;
  pair : grp -> grp -> gt;
  gt_mul : gt -> gt -> gt;
  gt_pow : gt -> F -> gt;
  smulA : forall P x y, smul (smul P x) y = smul P (x * y);
  smulD : forall P x y, gadd (smul P x) (smul P y) = smul P (x + y);
  pair_smul : forall P Q x y,
    pair (smul P x) (smul Q y) = gt_pow (pair P Q) (x * y);
  gt_pow1 : forall g, gt_pow g 1 = g;
  gt_powD : forall g x y, gt_mul (gt_pow g x) (gt_pow g y) = gt_pow g (x + y)
}.

(** ** Program state *)

(** The module-level variables the three functions read or write, and the
    random source.  [tau], [beta] and [gamma] are unbound until Setup has
    run; [a] and [n_stmt] are bound by the script before any call.  The
    random source is the stream of the field elements it will return. *)
Record world : Type := World {
  rng : nat -> F;
  g_tau : option F;
  g_beta : option F;
  g_gamma : option F;
  g_a : seq F;
  g_n_stmt : nat
}.

Definition M (A : Type) : Type := world -> result A * world.

Definition ret {A : Type} (x : A) : M A := fun w => (Ok x, w).

Definition raise {A : Type} (e : exn) : M A := fun w => (Raise e, w).

Definition bindM {A B : Type} (c : M A) (k : A -> M B) : M B :=
  fun w =>
    match c w with
    | (Ok x, w') => k x w'
    | (Raise e, w') => (Raise e, w')
    end.

Notation "x <-- c ;; k" := (bindM c (fun x => k))
  (at level 100, c at next level, right associativity).
Notation "c ;;- k" := (bindM c (fun _ => k))
  (at level 100, right associativity).

Definition assertM (line : nat) (b : bool) : M unit :=
  if b then ret tt else raise (AssertionError line).

(** [random_fp()]: the next element of the random source. *)
Definition random_fp : M F :=
  fun w =>
    (Ok (rng w 0%N),
     World (fun i => rng w i.+1) (g_tau w) (g_beta w) (g_gamma w)
           (g_a w) (g_n_stmt w)).

Definition set_tau (x : F) : M unit :=
  fun w =>
    (Ok tt, World (rng w) (Some x) (g_beta w) (g_gamma w) (g_a w) (g_n_stmt w)).

Definition set_beta (x : F) : M unit :=
  fun w =>
    (Ok tt, World (rng w) (g_tau w) (Some x) (g_gamma w) (g_a w) (g_n_stmt w)).

Definition set_gamma (x : F) : M unit :=
  fun w =>
    (Ok tt, World (rng w) (g_tau w) (g_beta w) (Some x) (g_a w) (g_n_stmt w)).

(** ** Setup, prover and verifier *)

Variable PG : pairing_group.

(** [sum(xs, start)] over group elements. *)
Definition py_sum (xs : seq (grp PG)) (start : grp PG) : grp PG :=
  foldl (@gadd PG) start xs.

(** The target-group element [GT]. *)
Definition GT : gt PG := pair (G PG) (G PG).

(** The interpolated column polynomials
    [Us = [Poly.interpolate(rs, U[:,k]) for k in range(n)]]. *)
Definition column_polys (U : ndarray) : seq poly :=
  [seq interpolate (rs (nrows U)) (column U k) | k <- range 0 (ncols U)].

Definition babysnark_setup (U : ndarray) (n_stmt : nat) : M (seq (grp PG)) :=
  let: (m, n) := shape U in
  assertM 121 (n_stmt < n)%N ;;-
  let Us := column_polys U in
  tau <-- random_fp ;; set_tau tau ;;-
  beta <-- random_fp ;; set_beta beta ;;-
  gamma <-- random_fp ;; set_gamma gamma ;;-
  let CRS :=
    [seq smul (G PG) (tau ^+ i) | i <- range 0 (m + 1)]
    ++ [:: smul (G PG) gamma; smul (G PG) (beta * gamma)]
    ++ [seq smul (G PG) (beta * poly_eval Ui tau)
       | Ui <- slice_from (Posz n_stmt) Us] in
  ret CRS.

(** The loop [for k in ks: acc += a[k] * Us[k]] of lines 160-161, 165-166
    and 218-219. *)
Definition accumulate (line : nat) (a : seq F) (Us : seq poly) (acc : poly)
  (ks : seq nat) : result poly :=
  foldM (fun acc k =>
           ak <- getitem line a k ;;
           Uk <- getitem line Us k ;;
           Ok (poly_add acc (poly_scale ak Uk)))
        acc ks.

(** The comprehension [[basis[i] * p.coefficients[i] for i in range(k)]]
    summed from [G*0]: lines 178-179, 182, 211 and 221. *)
Definition commit (line : nat) (basis : seq (grp PG)) (p : poly) (k : nat)
  : result (grp PG) :=
  terms <- mapM (fun i =>
                   bi <- getitem line basis i ;;
                   ci <- getitem line (coefficients p) i ;;
                   Ok (smul bi ci))
                (range 0 k) ;;
  Ok (py_sum terms (smul (G PG) 0)).

(** The witness polynomial [vw] of lines 159-161, as the prover computes
    it. *)
Definition prover_vw (U : ndarray) (n_stmt : nat) (a : seq F) : result poly :=
  accumulate 161 a (column_polys U) (mkPoly [:: 0]) (range n_stmt (ncols U)).

(** The polynomial [v] of lines 164-166. *)
Definition prover_v (U : ndarray) (n_stmt : nat) (a : seq F) : result poly :=
  vw <- prover_vw U n_stmt a ;;
  accumulate 166 a (column_polys U) vw (range 0 n_stmt).

(** The quotient [h = p / t] of lines 169-172, with [p = v * v - 1]. *)
Definition prover_h (U : ndarray) (n_stmt : nat) (a : seq F) : result poly :=
  v <- prover_v U n_stmt a ;;
  poly_div 172 (poly_sub (poly_mul v v) (mkPoly [:: 1]))
           (vanishing_poly (rs (nrows U))).

Definition babysnark_prover (U : ndarray) (n_stmt : nat) (CRS : seq (grp PG))
  (a : seq F) : result (grp PG * grp PG * grp PG) :=
  let: (m, n) := shape U in
  assert 145 (n == size a) ;;;
  assert 146 (Posz (size CRS) == Posz (m + 1) + 2 + (Posz n - Posz n_stmt)) ;;;
  let taus := take (m + 1) CRS in
  let bUis := slice_from (- (Posz n - Posz n_stmt)) CRS in
  let t := vanishing_poly (rs m) in
  let Us := column_polys U in
  vw <- accumulate 161 a Us (mkPoly [:: 0]) (range n_stmt n) ;;
  v <- accumulate 166 a Us vw (range 0 n_stmt) ;;
  let p := poly_sub (poly_mul v v) (mkPoly [:: 1]) in
  h <- poly_div 172 p t ;;
  assert 173 (p == poly_mul t h) ;;;
  assert 174 (size (coefficients vw) == m) ;;;
  assert 175 (size (coefficients h) <= m)%N ;;;
  H <- commit 178 taus h (size (coefficients h)) ;;
  Vw <- commit 182 taus vw m ;;
  Bws <- mapM (fun k =>
                 bk <- getitem 186 bUis (k - n_stmt) ;;
                 ak <- getitem 186 a k ;;
                 Ok (smul bk ak))
              (range n_stmt n) ;;
  let Bw := py_sum Bws (smul (G PG) 0) in
  Ok (H, Bw, Vw).

(** The number of coefficients of a polynomial, when its computation did
    not raise: [len(p.coefficients)]. *)
Definition coeff_count (r : result poly) : option nat :=
  match r with
  | Ok p => Some (size (coefficients p))
  | Raise _ => None
  end.

(** The statement polynomial [vs] of lines 217-219.  The loop bound and the
    coefficients are the module-level [n_stmt] and [a]. *)
Definition verifier_vs (w : world) (U : ndarray) : result poly :=
  accumulate 219 (g_a w) (column_polys U) (mkPoly [:: 0])
             (range 0 (g_n_stmt w)).

Definition babysnark_verifier (w : world) (U : ndarray) (CRS : seq (grp PG))
  (a_stmt : seq F) (pi : grp PG * grp PG * grp PG) : result bool :=
  let: (m, n) := shape U in
  let: (H, Bw, Vw) := pi in
  let taus := take (m + 1) CRS in
  gamma <- getitem 204 CRS (m + 1) ;;
  gammabeta <- getitem 205 CRS (m + 2) ;;
  let bUis := slice_from (- (Posz n - Posz (g_n_stmt w))) CRS in
  let t := vanishing_poly (rs m) in
  T <- commit 211 taus t (m + 1) ;;
  vs <- verifier_vs w U ;;
  Vs <- commit 221 taus vs m ;;
  let V := gadd Vs Vw in
  assert 226 (pair Bw gamma == pair Vw gammabeta) ;;;
  assert 230 (gt_mul (pair H T) GT == pair V V) ;;;
  Ok true.

(** The script's run, lines 246-257: Setup, then the prover on the full
    witness, then the verifier on the statement prefix [a[:n_stmt]]. *)
Definition run_protocol (U : ndarray) (n_stmt : nat) (a : seq F)
  : M bool :=
  CRS <-- babysnark_setup U n_stmt ;;
  fun w =>
    (pi <- babysnark_prover U n_stmt CRS a ;;
     babysnark_verifier w U CRS (take n_stmt a) pi, w).

(** Lines 237-257 of the script: the module-level names [n_stmt] and [a]
    are bound to the split and to the witness, and Setup, the prover and the
    verifier are called on them. *)
Definition run_script (U : ndarray) (n_stmt : nat) (a : seq F) : M bool :=
  fun w =>
    run_protocol U n_stmt a
      (World (rng w) (g_tau w) (g_beta w) (g_gamma w) a n_stmt).

End Model.

Arguments ndarray F : clear implicits.
Arguments world F : clear implicits.
Arguments pairing_group F : clear implicits.

(** ** A model of the pairing group

    Every element of a cyclic group generated by [G] is [G * x] for one
    scalar [x]; representing it by [x], scalar multiplication is the
    product, group addition the sum, the pairing of [G * x] and [G * y] is
    [GT^(x * y)], represented by [x * y], and the product in the target
    group adds exponents. *)

Section ExponentModel.

Variable F : fieldType.

Definition exp_group : pairing_group F :=
  @PairingGroup F F F 1 (fun P x => P * x) (fun P Q => P + Q)
    (fun P Q => P * Q) (fun g h => g + h) (fun g x => g * x)
    (fun P x y => esym (mulrA P x y))
    (fun P x y => esym (mulrDr P x y))
    (fun P Q x y => mulrACA P x Q y)
    (fun g => mulr1 g)
    (fun g x y => esym (mulrDr g x y)).

End ExponentModel.

(** ** Concrete instances over the field of 53 elements *)

Definition F53 : fieldType := 'F_53.

Definition of_nats (s : seq nat) : seq F53 := [seq x%:R | x <- s].

(** A matrix given by its rows. *)
Definition of_rows (m n : nat) (rows : seq (seq nat)) : ndarray F53 :=
  Ndarray m n (fun i k => (nth 0%N (nth [::] rows i) k)%:R).

(** A random source that returns 5, 7, 11 and then zeros. *)
Definition rng0 : nat -> F53 := fun i => nth 0 (of_nats [:: 5; 7; 11]%N) i.

(** Two gates, two columns, one statement entry: [U.a = (1, -1)]. *)
Definition U_lin : ndarray F53 := of_rows 2 2 [:: [:: 1; 1]; [:: 2; 3]]%N.
Definition a_lin : seq F53 := of_nats [:: 4; 50]%N.
Definition w_lin : world F53 := World rng0 None None None a_lin 1.


(** The CRS that Setup returns on [U_lin] with one statement entry, and the
    proof [(H, Bw, Vw)] of the prover on it. *)
Definition crs_lin : seq F53 := of_nats [:: 1; 5; 25; 11; 24; 10]%N.
Definition pi_lin : F53 * F53 * F53 := (4%:R, 23%:R, 26%:R).

(** The same instance with an unsatisfying witness, with a proof whose [Bw]
    was replaced, and with another statement in the module-level [a]. *)
Definition a_unsat : seq F53 := of_nats [:: 4; 49]%N.
Definition pi_forged : F53 * F53 * F53 := (4%:R, 24%:R, 26%:R).
Definition w_other : world F53 :=
  World rng0 None None None (of_nats [:: 5; 50]%N) 1.

(** Two gates whose columns are constant: [U.a = (1, 1)]. *)
Definition U_const : ndarray F53 := of_rows 2 2 [:: [:: 1; 1]; [:: 1; 1]]%N.
Definition a_const : seq F53 := of_nats [:: 3; 51]%N.
Definition w_const : world F53 := World rng0 None None None a_const 1.

(** A satisfying instance whose statement polynomial is constant:
    [U.a = (1, -1)], [vw = 52 X + 1], [vs = 2]. *)
Definition U_flat : ndarray F53 := of_rows 2 2 [:: [:: 1; 1]; [:: 1; 3]]%N.
Definition a_flat : seq F53 := of_nats [:: 2; 52]%N.

(** The shape of the script's instance: 10 gates, 6 columns. *)
Definition U_script : ndarray F53 :=
  Ndarray 10 6 (fun i k => (i * k + 1)%:R).

(** ** Polynomials of the protocol

    The polynomials the three functions compute, as polynomials of the
    MathComp library; the coefficient sequences of the model are shown to be
    their coefficient sequences. *)

Section Denotation.

Variable F : fieldType.
Variable PG : pairing_group F.
Implicit Types (U : ndarray F) (a : seq F) (w : world F).

(** The product of [X - z] over [z] in [S]. *)
Definition vanishing (S : seq F) : {poly F} := \prod_(z <- S) ('X - z%:P).

(** The Lagrange basis polynomial of position [i] over the points [xs]. *)
Definition basis_poly (xs : seq F) (i : nat) : {poly F} :=
  \prod_(j <- iota 0 (size xs) | j != i)
     ((xs`_i - xs`_j)^-1 *: ('X - (xs`_j)%:P)).

(** The Lagrange interpolation polynomial of the paired points. *)
Definition interp_poly (xs ys : seq F) : {poly F} :=
  \sum_(i <- iota 0 (minn (size xs) (size ys))) ys`_i *: basis_poly xs i.

(** The polynomial [U_k] of column [k]. *)
Definition col_poly U k : {poly F} := interp_poly (rs F (nrows U)) (column U k).

(** The linear combination of the column polynomials over the columns [ks],
    weighted by [a]. *)
Definition lin_comb U a (ks : seq nat) : {poly F} :=
  \sum_(k <- ks) a`_k *: col_poly U k.

(** The polynomials [v], [p = v * v - 1] and [t] of the prover. *)
Definition v_poly U a : {poly F} := lin_comb U a (range 0 (ncols U)).

Definition p_poly U a : {poly F} := v_poly U a * v_poly U a - 1.

Definition t_poly U : {poly F} := vanishing (rs F (nrows U)).

(** The witness polynomial [vw] and the coefficients of the quotient [h]. *)
Definition vw_poly U n_stmt a : {poly F} :=
  lin_comb U a (range n_stmt (ncols U)).

Definition h_seq U a : seq F := (poly_divmod (p_poly U a) (t_poly U)).1.

(** The power-of-tau basis [[G * (tau ** i) for i in range(m+1)]]. *)
Definition powers (tau : F) (m : nat) : seq (grp PG) :=
  [seq smul (G PG) (tau ^+ i) | i <- range 0 (m + 1)].

(** The CRS that Setup builds from the trapdoor. *)
Definition crs_of (tau beta gamma : F) U (n_stmt : nat) : seq (grp PG) :=
  powers tau (nrows U)
  ++ [:: smul (G PG) gamma; smul (G PG) (beta * gamma)]
  ++ [seq smul (G PG) (beta * poly_eval Ui tau) | Ui <- drop n_stmt (column_polys U)].

(** The program state after a successful Setup. *)
Definition after_setup w : world F :=
  World (fun i => rng w i.+3) (Some (rng w 0%N)) (Some (rng w 1%N))
        (Some (rng w 2%N)) (g_a w) (g_n_stmt w).

(** Lines 177-194 of the prover, after its assertions. *)
Definition prover_tail U n_stmt (CRS : seq (grp PG)) a
  : result (grp PG * grp PG * grp PG) :=
  let m := nrows U in
  let taus := take (m + 1) CRS in
  let bUis := slice_from (- (Posz (ncols U) - Posz n_stmt)) CRS in
  H <- commit 178 taus (h_seq U a) (size (h_seq U a)) ;;
  Vw <- commit 182 taus (vw_poly U n_stmt a) m ;;
  Bws <- mapM (fun k =>
                 bk <- getitem 186 bUis (k - n_stmt) ;;
                 ak <- getitem 186 a k ;;
                 Ok (smul bk ak))
              (range n_stmt (ncols U)) ;;
  Ok (H, py_sum Bws (smul (G PG) 0), Vw).

End Denotation.

(** ** Instance generation *)

Section Generation.

Variable F : fieldType.

(** [sqrt] of [ssbls12], which is not part of the sources, is a parameter. *)
Variable sqrt : F -> F.

(** Lines 100-103 of [generate_solved_instance]: with
    [Ua2 = U.dot(a) * U.dot(a)] computed before the loop, every row [i] of
    [U] is divided by [sqrt(Ua2[i])].  What the field does on a division by
    zero is not in the sources; the model divides as the field type does. *)
Definition normalize_rows (U : ndarray F) (a : seq F) : ndarray F :=
  let Ua2 := fun i => dot U a i * dot U a i in
  Ndarray (nrows U) (ncols U)
    (fun i k =>
       if (i < nrows U)%N && (k < ncols U)%N
       then entry U i k / sqrt (Ua2 i)
       else entry U i k).

(** Lines 100-106 of [generate_solved_instance], on the sampled [a] and
    [U]: normalise the rows, assert the constraints, return the instance. *)
Definition solve_instance (U : ndarray F) (a : seq F)
  : result (ndarray F * seq F) :=
  let U' := normalize_rows U a in
  assert 105 (ssp U' a) ;;;
  Ok (U', a).

End Generation.

(** A square root in the field of 53 elements, by search. *)
Definition sqrt53 (x : F53) : F53 :=
  head 0 [seq y <- of_nats (iota 0 53) | y * y == x].

(** An instance before normalisation: [U.a = (4, 9)]. *)
Definition U_raw : ndarray F53 := of_rows 2 2 [:: [:: 1; 1]; [:: 2; 3]]%N.
Definition a_raw : seq F53 := of_nats [:: 3; 1]%N.

(** The value of a computation that did not raise. *)
Definition unwrap (A : Type) (d : A) (r : result A) : A :=
  match r with
  | Ok x => x
  | Raise _ => d
  end.

(** Linear arithmetic over [nat] with the boolean orders of ssrnat. *)
Ltac natlia :=
  repeat match goal with
  | H : is_true (leq ?a ?b) |- _ =>
      lazymatch goal with
      | _ : le a b |- _ => fail
      | _ => pose proof (elimT leP H)
      end
  | H : @eq ?T ?x ?y |- _ =>
      unify T nat;
      lazymatch goal with
      | _ : @eq nat x y |- _ => fail
      | _ => pose proof (H : @eq nat x y)
      end
  end;
  repeat match goal with
  | H : le _ _ |- _ => revert H
  | H : @eq nat _ _ |- _ => revert H
  end;
  rewrite -?subn1 -?plusE -?minusE -?multE; intros;
  try apply/leP; lia.

(** * Theory of the model *)

Section PolyTheory.

Variable F : fieldType.
Implicit Types (p q d r s S xs ys : seq F) (c x : F).

Lemma stripE s : strip s = Poly s :> seq F.
Proof.
elim: s => [|c s IH] /=; first by rewrite polyseq0.
rewrite polyseq_cons IH.
case E: (nilp (Poly s)) => /=; last by [].
by rewrite polyseqC (nilP E); case: eqP.
Qed.

Lemma Poly_strip s : Poly (strip s) = Poly s.
Proof. by rewrite stripE polyseqK. Qed.

Lemma strip_polyseq (P : {poly F}) : strip P = P.
Proof. by rewrite stripE polyseqK. Qed.

Lemma Poly_add_coeffs p q : Poly (add_coeffs p q) = Poly p + Poly q.
Proof.
elim: p q => [|a p IH] [|b q] /=; rewrite ?add0r ?addr0 //.
rewrite IH !cons_poly_def mulrDl polyCD.
by rewrite addrACA.
Qed.

Lemma Poly_map_mul c p : Poly [seq c * x | x <- p] = c *: Poly p.
Proof.
elim: p => [|a p IH] /=; first by rewrite scaler0.
by rewrite IH !cons_poly_def scalerDr scalerAl polyCM mul_polyC.
Qed.

Lemma Poly_map_opp p : Poly [seq - x | x <- p] = - Poly p.
Proof.
elim: p => [|a p IH] /=; first by rewrite oppr0.
by rewrite IH !cons_poly_def opprD mulNr polyCN.
Qed.

Lemma Poly_mul_coeffs p q : Poly (mul_coeffs p q) = Poly p * Poly q.
Proof.
elim: p => [|a p IH] /=; first by rewrite mul0r.
rewrite Poly_add_coeffs Poly_map_mul /= IH !cons_poly_def.
by rewrite polyC0 addr0 mulrDl -mul_polyC addrC mulrAC.
Qed.

Lemma poly_addE p q : poly_add p q = Poly p + Poly q :> seq F.
Proof. by rewrite /poly_add stripE Poly_add_coeffs. Qed.

Lemma poly_scaleE c p : poly_scale c p = c *: Poly p :> seq F.
Proof. by rewrite /poly_scale stripE Poly_map_mul. Qed.

Lemma poly_subE p q : poly_sub p q = Poly p - Poly q :> seq F.
Proof. by rewrite /poly_sub stripE Poly_add_coeffs Poly_map_opp. Qed.

Lemma poly_mulE p q : poly_mul p q = Poly p * Poly q :> seq F.
Proof. by rewrite /poly_mul stripE Poly_mul_coeffs. Qed.

Lemma mkPolyE s : mkPoly s = Poly s :> seq F.
Proof. exact: stripE. Qed.

Lemma poly_evalE p x : poly_eval p x = (Poly p).[x].
Proof. by rewrite horner_Poly; elim: p => [|a p IH] //=; rewrite IH. Qed.

Lemma Poly_ncons k s : Poly (ncons k 0 s) = Poly s * 'X^k.
Proof.
elim: k => [|k IH] /=; first by rewrite expr0 mulr1.
by rewrite IH cons_poly_def polyC0 addr0 exprSr mulrA.
Qed.

Lemma monomialE k c : monomial k c = c *: 'X^k :> seq F.
Proof.
rewrite /monomial stripE Poly_ncons /=.
by rewrite cons_poly_def polyC0 mul0r add0r mul_polyC.
Qed.

Lemma last_lead_coef (P : {poly F}) : last 0 P = lead_coef P.
Proof. by rewrite lead_coefE nth_last. Qed.

Lemma size_sub_lead (P Q : {poly F}) :
  P != 0 -> size Q = size P -> lead_coef Q = lead_coef P ->
  (size (P - Q)%R < size P)%N.
Proof.
move=> nzP sQ lQ.
have sP : (0 < size P)%N by rewrite lt0n size_poly_eq0.
rewrite -(prednK sP) ltnS; apply/leq_sizeP => j.
rewrite leq_eqVlt => /orP [/eqP <-|lt_j]; rewrite coefB.
  by rewrite -lead_coefE -sQ -lead_coefE lQ subrr.
have leP : (size P <= j)%N by rewrite -(prednK sP).
by rewrite !nth_default ?subrr // sQ.
Qed.

Lemma size_cancel_lead (D R : {poly F}) :
  D != 0 -> (size D <= size R)%N ->
  (size (R - (lead_coef R / lead_coef D) *: 'X^(size R - size D) * D)%R
     < size R)%N.
Proof.
move=> nzD leDR.
have sD : (0 < size D)%N by rewrite lt0n size_poly_eq0.
have nzR : R != 0 by rewrite -size_poly_eq0 -lt0n (leq_trans sD).
have nzc : lead_coef R / lead_coef D != 0.
  by rewrite mulf_neq0 ?invr_eq0 ?lead_coef_eq0.
have sX : size ('X^(size R - size D) * D) = size R.
  by rewrite size_monicM ?monicXn // size_polyXn addSn /= subnK.
apply: size_sub_lead => //.
  by rewrite -scalerAl size_scale.
rewrite -scalerAl lead_coefZ lead_coef_monicM ?monicXn //.
by rewrite divfK ?lead_coef_eq0.
Qed.

Lemma divmod_loopP fuel (D Q R : {poly F}) :
  D != 0 -> (size R <= fuel)%N ->
  exists Q' R' : {poly F},
    [/\ divmod_loop fuel D Q R = (polyseq Q', polyseq R'),
        Q' * D + R' = Q * D + R & (size R' < size D)%N].
Proof.
move=> nzD; have sD : (0 < size D)%N by rewrite lt0n size_poly_eq0.
elim: fuel Q R => [|fuel IH] Q R leR /=.
  by exists Q, R; split=> //; apply: leq_ltn_trans sD.
case: leqP => [leDR|ltRD]; last by exists Q, R.
rewrite !last_lead_coef monomialE poly_addE poly_mulE poly_subE !polyseqK.
set M := _ *: 'X^_.
have [|Q' [R' [-> eqQR ltR']]] := IH (Q + M) (R - M * D).
  by rewrite -ltnS; apply: leq_trans leR; apply: size_cancel_lead.
exists Q', R'; split=> //.
by rewrite eqQR; ring.
Qed.

Lemma poly_divmodP (P D : {poly F}) :
  D != 0 ->
  exists Q R : {poly F},
    [/\ poly_divmod P D = (polyseq Q, polyseq R),
        P = Q * D + R & (size R < size D)%N].
Proof.
move=> nzD; rewrite /poly_divmod.
have [//|Q [R [eqd eqP ltR]]] := @divmod_loopP (size P) D 0 P nzD.
exists Q, R; split=> //.
  by rewrite -eqd polyseq0.
by rewrite eqP mul0r add0r.
Qed.

Lemma Poly_XsubC x : Poly [:: - x; 1] = 'X - x%:P.
Proof.
by rewrite /= !cons_poly_def polyC0 mul0r add0r polyC1 mul1r polyCN.
Qed.

Lemma Poly_1 : Poly [:: 1] = 1 :> {poly F}.
Proof. by rewrite /= cons_poly_def polyC0 mul0r add0r polyC1. Qed.

Lemma Poly_0 : Poly [:: 0] = 0 :> {poly F}.
Proof. by rewrite /= cons_poly_def polyC0 mul0r add0r. Qed.

(** A left fold that multiplies, or adds, trimmed sequences computes the
    product, or the sum, of the polynomials. *)
Lemma foldl_mulE (T : Type) (P : pred T) (f : T -> seq F) (Z : {poly F})
  (s : seq T) :
  foldl (fun acc j => if P j then acc else poly_mul acc (f j)) Z s
  = Z * \prod_(j <- s | ~~ P j) Poly (f j) :> seq F.
Proof.
elim: s Z => [|j s IH] Z /=; first by rewrite big_nil mulr1.
rewrite big_cons; case: (P j) => /=; first exact: IH.
by rewrite poly_mulE polyseqK IH mulrA.
Qed.

Lemma foldl_addE (T : Type) (f : T -> seq F) (Z : {poly F}) (s : seq T) :
  foldl (fun acc j => poly_add acc (f j)) Z s
  = Z + \sum_(j <- s) Poly (f j) :> seq F.
Proof.
elim: s Z => [|j s IH] Z /=; first by rewrite big_nil addr0.
by rewrite big_cons poly_addE polyseqK IH addrA.
Qed.

Lemma vanishing_polyE S : vanishing_poly S = vanishing S :> seq F.
Proof.
rewrite /vanishing_poly mkPolyE Poly_1.
rewrite (foldl_mulE xpred0 (fun z => mkPoly [:: - z; 1])) mul1r.
by congr (polyseq _); apply: eq_bigr => z _; rewrite mkPolyE polyseqK Poly_XsubC.
Qed.

Lemma lagrange_basisE xs i : lagrange_basis xs i = basis_poly xs i :> seq F.
Proof.
rewrite /lagrange_basis mkPolyE Poly_1.
rewrite (foldl_mulE (fun j => j == i)) mul1r.
congr (polyseq _); apply: eq_bigr => j _.
by rewrite poly_scaleE !(mkPolyE, polyseqK) Poly_XsubC.
Qed.

Lemma interpolateE xs ys : interpolate xs ys = interp_poly xs ys :> seq F.
Proof.
rewrite /interpolate mkPolyE Poly_0.
rewrite (foldl_addE (fun i => poly_scale ys`_i (lagrange_basis xs i))) add0r.
congr (polyseq _); apply: eq_bigr => i _.
by rewrite poly_scaleE lagrange_basisE !polyseqK.
Qed.

Lemma basis_poly_eval xs i k :
  uniq xs -> (i < size xs)%N -> (k < size xs)%N ->
  (basis_poly xs i).[xs`_k] = (i == k)%:R.
Proof.
move=> uxs lti ltk; rewrite /basis_poly horner_prod.
have [<-|ne_ik] := eqVneq i k.
  rewrite big1_seq // => j /andP [ne_ji]; rewrite mem_iota add0n /= => ltj.
  by rewrite hornerZ hornerXsubC mulVf // subr_eq0 nth_uniq // eq_sym.
apply/eqP; rewrite prodf_seq_eq0; apply/hasP; exists k.
  by rewrite mem_iota add0n.
by rewrite eq_sym ne_ik hornerZ hornerXsubC subrr mulr0 eqxx.
Qed.

Lemma interp_poly_eval xs ys k :
  uniq xs -> size ys = size xs -> (k < size xs)%N ->
  (interp_poly xs ys).[xs`_k] = ys`_k.
Proof.
move=> uxs sz ltk; rewrite /interp_poly sz minnn horner_sum.
have kin : k \in iota 0 (size xs) by rewrite mem_iota add0n.
rewrite (bigD1_seq k) ?iota_uniq //= hornerZ basis_poly_eval // eqxx mulr1.
rewrite big1_seq ?addr0 // => i /andP [ne_ik]; rewrite mem_iota add0n /= => lti.
by rewrite hornerZ basis_poly_eval // (negPf ne_ik) mulr0.
Qed.

Lemma size_prod_linear (T : Type) (P : pred T) (c z : T -> F) (s : seq T) :
  (size (\prod_(j <- s | P j) (c j *: ('X - (z j)%:P)))%R
     <= (count P s).+1)%N.
Proof.
elim: s => [|j s IH] /=; first by rewrite big_nil size_poly1.
rewrite big_cons; case: (P j); last by rewrite add0n.
apply: leq_trans (size_polyMleq _ _) _; rewrite add1n.
set A := size _; set B := size _.
have leA : (A <= 2)%N.
  by apply: leq_trans (size_scale_leq _ _) _; rewrite size_XsubC.
have leAB : (A + B <= 2 + (count P s).+1)%N by apply: leq_add.
by rewrite -subn1 leq_subLR add1n; exact: leAB.
Qed.

Lemma size_basis_poly xs i :
  (i < size xs)%N -> (size (basis_poly xs i) <= size xs)%N.
Proof.
move=> lti; apply: leq_trans (size_prod_linear _ _ _ _) _.
have := count_predC (pred1 i) (iota 0 (size xs)); rewrite size_iota.
rewrite count_uniq_mem ?iota_uniq // mem_iota add0n lti /= add1n => eqn.
by rewrite [X in (X <= _)%N]eqn.
Qed.

Lemma size_sum_leq (T : eqType) (f : T -> {poly F}) (s : seq T) (n : nat) :
  {in s, forall i, (size (f i) <= n)%N} ->
  (size (\sum_(i <- s) f i)%R <= n)%N.
Proof.
elim: s => [|i s IH] le_f; first by rewrite big_nil size_poly0.
rewrite big_cons; apply: leq_trans (size_polyD _ _) _; rewrite geq_max.
rewrite le_f ?mem_head //=; apply: IH => j js.
by apply: le_f; rewrite in_cons js orbT.
Qed.

Lemma size_interp_poly xs ys : (size (interp_poly xs ys) <= size xs)%N.
Proof.
apply: size_sum_leq => i; rewrite mem_iota add0n /= leq_min => /andP [lti _].
by apply: leq_trans (size_scale_leq _ _) _; apply: size_basis_poly.
Qed.

End PolyTheory.

Section MonadTheory.

Lemma crs_lenE (m n n_stmt sz : nat) :
  (Posz sz == Posz (m + 1) + 2 + (Posz n - Posz n_stmt))
  = (sz + n_stmt == m + 3 + n)%N.
Proof.
rewrite addrA eq_sym subr_eq -!PoszD eqz_nat eq_sym.
by rewrite -!addnA.
Qed.

Lemma slice_from_neg (T : Type) (n n_stmt : nat) (s : seq T) :
  (n_stmt < n)%N ->
  slice_from (- (Posz n - Posz n_stmt)) s = drop (size s - (n - n_stmt)) s.
Proof.
move=> lt; rewrite subzn 1?ltnW // /slice_from.
have: (0 < n - n_stmt)%N by rewrite subn_gt0.
by case: (n - n_stmt)%N => [|k] //= _; rewrite -NegzE.
Qed.

Lemma getitem_ok (T : Type) (x0 : T) line (s : seq T) i :
  (i < size s)%N -> getitem line s i = Ok (nth x0 s i).
Proof.
rewrite /getitem => lti; rewrite (drop_nth x0 lti).
by [].
Qed.

Lemma getitem_err (T : Type) line (s : seq T) i :
  (size s <= i)%N -> getitem line s i = Raise (IndexError line).
Proof. by rewrite /getitem => lei; rewrite drop_oversize. Qed.

Lemma mapM_ok (A : eqType) (B : Type) (f : A -> result B) (g : A -> B)
  (s : seq A) :
  {in s, forall i, f i = Ok (g i)} -> mapM f s = Ok [seq g i | i <- s].
Proof.
elim: s => [|i s IH] fg //=.
rewrite fg ?mem_head //= IH // => j js.
by apply: fg; rewrite in_cons js orbT.
Qed.

Lemma mapM_err (A : eqType) (B : Type) (f : A -> result B) (e : exn)
  (s : seq A) :
  {in s, forall i, f i = Raise e \/ exists y, f i = Ok y} ->
  (exists2 i, i \in s & f i = Raise e) ->
  mapM f s = Raise e.
Proof.
elim: s => [|i s IH] fs [j]; first by rewrite in_nil.
rewrite in_cons => /orP [/eqP ->|js] fj /=; first by rewrite fj.
case: (fs i (mem_head _ _)) => [->|[y ->]] //=.
rewrite IH //; last by exists j.
by move=> k ks; apply: fs; rewrite in_cons ks orbT.
Qed.

End MonadTheory.

Section Protocol.

Variable F : fieldType.
Variable PG : pairing_group F.
Implicit Types (U : ndarray F) (a : seq F) (w : world F).

Lemma mem_range lo hi k : (k \in range lo hi) = (lo <= k < hi)%N.
Proof.
rewrite /range mem_iota; case: (leqP lo k) => //= le_lo.
case: (leqP hi lo) => [le_hi|/ltnW lt_lo]; last by rewrite subnKC.
by rewrite (eqP le_hi) addn0 ltnNge le_lo /= ltnNge (leq_trans le_hi le_lo).
Qed.

Lemma range_cat lo mid hi :
  (lo <= mid)%N -> (mid <= hi)%N -> range lo hi = range lo mid ++ range mid hi.
Proof.
move=> le1 le2; rewrite /range.
have -> : (hi - lo = (mid - lo) + (hi - mid))%N by rewrite addnC addnBA // subnK.
by rewrite iotaD subnKC.
Qed.

Lemma size_rs m : size (rs F m) = m.
Proof. by rewrite /rs /range size_map size_iota subn0. Qed.

Lemma size_column U k : size (column U k) = nrows U.
Proof. by rewrite /column /range size_map size_iota subn0. Qed.

Lemma nth_column U k i : (i < nrows U)%N -> (column U k)`_i = entry U i k.
Proof.
move=> lti; rewrite /column /range (nth_map 0%N) ?size_iota ?subn0 //.
by rewrite nth_iota ?subn0 // add0n.
Qed.

Lemma size_column_polys U : size (column_polys U) = ncols U.
Proof. by rewrite /column_polys /range size_map size_iota subn0. Qed.

Lemma nth_column_polys U k :
  (k < ncols U)%N -> nth [::] (column_polys U) k = col_poly U k :> seq F.
Proof.
move=> ltk; rewrite /column_polys /range (nth_map 0%N) ?size_iota ?subn0 //.
by rewrite nth_iota ?subn0 // add0n interpolateE.
Qed.

Lemma accumulate_ok line a (Us : seq (seq F)) (Z : {poly F}) ks :
  {in ks, forall k, (k < size a)%N && (k < size Us)%N} ->
  accumulate line a Us Z ks
  = Ok (polyseq (Z + \sum_(k <- ks) a`_k *: Poly (nth [::] Us k))).
Proof.
elim: ks Z => [|k ks IH] Z inb /=; first by rewrite big_nil addr0.
have /andP [lta ltU] := inb k (mem_head _ _).
rewrite /accumulate /= (getitem_ok 0 _ lta) (getitem_ok [::] _ ltU) /=.
rewrite poly_addE poly_scaleE !polyseqK big_cons addrA.
by apply: IH => j js; apply: inb; rewrite in_cons js orbT.
Qed.

Lemma accumulate_cases line a (Us : seq (seq F)) acc ks :
  (exists p, accumulate line a Us acc ks = Ok p)
  \/ accumulate line a Us acc ks = Raise (IndexError line).
Proof.
rewrite /accumulate; elim: ks acc => [|k ks IH] acc /=; first by left; exists acc.
rewrite /getitem; case: (drop k a) => [|ak _] /=; first by right.
by case: (drop k Us) => [|Uk _] /=; [right | apply: IH].
Qed.

Lemma accumulate_cols line U a (Z : {poly F}) ks :
  {in ks, forall k, (k < size a)%N && (k < ncols U)%N} ->
  accumulate line a (column_polys U) Z ks = Ok (polyseq (Z + lin_comb U a ks)).
Proof.
move=> inb; rewrite accumulate_ok => [k /inb|]; first by rewrite size_column_polys.
congr (Ok (polyseq (_ + _))); apply: eq_big_seq => k /inb /andP [_ ltk].
by rewrite nth_column_polys // polyseqK.
Qed.

Lemma prover_vwE U n_stmt a :
  (ncols U <= size a)%N ->
  prover_vw U n_stmt a
  = Ok (polyseq (lin_comb U a (range n_stmt (ncols U)))).
Proof.
move=> lea; rewrite /prover_vw mkPolyE Poly_0 accumulate_cols ?add0r //.
by move=> k; rewrite mem_range => /andP [_ ltk]; rewrite ltk (leq_trans ltk).
Qed.

Lemma prover_vE U n_stmt a :
  (ncols U <= size a)%N -> (n_stmt <= ncols U)%N ->
  prover_v U n_stmt a = Ok (polyseq (lin_comb U a (range 0 (ncols U)))).
Proof.
move=> lea len; rewrite /prover_v prover_vwE //= accumulate_cols.
  move=> k; rewrite mem_range => /andP [_ ltk].
  by rewrite (leq_trans ltk (leq_trans len lea)) (leq_trans ltk len).
by rewrite (range_cat (leq0n n_stmt) len) /lin_comb big_cat /= addrC.
Qed.

Lemma nth_rs m i : (i < m)%N -> (rs F m)`_i = (1 + i)%:R.
Proof.
move=> lti; rewrite /rs /range (nth_map 0%N) ?size_iota ?subn0 //.
by rewrite nth_iota ?subn0 // add0n.
Qed.

Lemma col_poly_eval U k i :
  uniq (rs F (nrows U)) -> (i < nrows U)%N ->
  (col_poly U k).[(rs F (nrows U))`_i] = entry U i k.
Proof.
move=> urs lti.
by rewrite /col_poly interp_poly_eval ?size_rs ?size_column // nth_column.
Qed.

Lemma dotE U a i :
  dot U a i = \sum_(k <- range 0 (ncols U)) entry U i k * a`_k.
Proof.
rewrite /dot; elim: (range 0 (ncols U)) => [|k ks IH] /=.
  by rewrite big_nil.
by rewrite big_cons IH.
Qed.

Lemma v_poly_eval U a i :
  uniq (rs F (nrows U)) -> (i < nrows U)%N ->
  (v_poly U a).[(rs F (nrows U))`_i] = dot U a i.
Proof.
move=> urs lti; rewrite /v_poly /lin_comb horner_sum dotE.
by apply: eq_bigr => k _; rewrite hornerZ col_poly_eval // mulrC.
Qed.

Lemma ssp_roots U a :
  uniq (rs F (nrows U)) ->
  ssp U a = all (root (p_poly U a)) (rs F (nrows U)).
Proof.
move=> urs; rewrite /ssp /rs all_map; apply: eq_in_all => i.
rewrite mem_range /= => lti; rewrite -(nth_rs lti) rootE /p_poly.
by rewrite hornerD hornerN hornerM hornerC v_poly_eval // subr_eq0.
Qed.

Lemma size_t_poly U : size (t_poly U) = (nrows U).+1.
Proof. by rewrite /t_poly /vanishing size_prod_XsubC size_rs. Qed.

Lemma t_poly_neq0 U : t_poly U != 0.
Proof. by rewrite -size_poly_eq0 size_t_poly. Qed.

Lemma t_poly_monic U : t_poly U \is monic.
Proof. exact: monic_prod_XsubC. Qed.

Lemma root_t_poly U x : root (t_poly U) x = (x \in rs F (nrows U)).
Proof. exact: root_prod_XsubC. Qed.

(** Division by the vanishing polynomial is exact when, and only when,
    the dividend vanishes at every root. *)
Lemma divmod_exact U (P : {poly F}) :
  uniq (rs F (nrows U)) -> all (root P) (rs F (nrows U)) ->
  exists2 Q : {poly F},
    poly_divmod P (t_poly U) = (polyseq Q, [::]) & P = t_poly U * Q.
Proof.
move=> urs rP.
have [Q [R [eqd eqPQ ltR]]] := poly_divmodP P (t_poly_neq0 U).
have R0 : R = 0.
  apply: (roots_geq_poly_eq0 _ urs); last by rewrite size_rs -ltnS -size_t_poly.
  apply/allP => x xin; have := allP rP x xin.
  rewrite eqPQ !rootE hornerD hornerM.
  have /eqP -> : root (t_poly U) x by rewrite root_t_poly.
  by rewrite mulr0 add0r.
exists Q; first by rewrite eqd R0 polyseq0.
by rewrite eqPQ R0 addr0 mulrC.
Qed.

Lemma roots_of_multiple U (P H : {poly F}) :
  P = t_poly U * H -> all (root P) (rs F (nrows U)).
Proof.
move=> ->; apply/allP => x xin; rewrite rootE hornerM.
have /eqP -> : root (t_poly U) x by rewrite root_t_poly.
by rewrite mul0r.
Qed.

(** *** Commitments in the power-of-tau basis *)

Notation g := (G PG).
Notation powers := (powers PG).
Notation crs_of := (crs_of PG).

Lemma py_sum_smul (f : nat -> F) (z : F) (s : seq nat) :
  py_sum [seq smul g (f i) | i <- s] (smul g z)
  = smul g (z + \sum_(i <- s) f i).
Proof.
rewrite /py_sum; elim: s z => [|i s IH] z /=; first by rewrite big_nil addr0.
by rewrite smulD IH big_cons addrA.
Qed.

Lemma commit_ok line (basis : seq (grp PG)) (p : seq F) k :
  (k <= size basis)%N -> (k <= size p)%N ->
  commit line basis p k
  = Ok (py_sum [seq smul (nth g basis i) p`_i | i <- range 0 k] (smul g 0)).
Proof.
move=> leb lep; rewrite /commit (@mapM_ok _ _ _ (fun i => smul (nth g basis i) p`_i)) //.
move=> i; rewrite mem_range /= => lti.
rewrite (getitem_ok g) ?(leq_trans lti) //=.
by rewrite (getitem_ok 0) ?(leq_trans lti).
Qed.

Lemma commit_err line (basis : seq (grp PG)) (p : seq F) k :
  (size basis < k)%N || (size p < k)%N ->
  commit line basis p k = Raise (IndexError line).
Proof.
move=> short; rewrite /commit (@mapM_err _ _ _ (IndexError line)) //.
  move=> i _; rewrite /getitem; case: (drop i basis) => [|b _] /=; first by left.
  by case: (drop i _) => [|c _] /=; [left | right; eexists].
case/orP: short => lt_k.
  exists (size basis); first by rewrite mem_range.
  by rewrite getitem_err.
case: (leqP k (size basis)) => [leb|ltb]; last first.
  by exists (size basis); [rewrite mem_range | rewrite getitem_err].
exists (size p); first by rewrite mem_range.
rewrite (getitem_ok g) ?(leq_trans lt_k) //=.
by rewrite getitem_err.
Qed.

Lemma commit_cases line (basis : seq (grp PG)) (p : seq F) k :
  (exists x, commit line basis p k = Ok x)
  \/ commit line basis p k = Raise (IndexError line).
Proof.
case: (leqP k (size basis)) => [leb|ltb]; last first.
  by right; rewrite commit_err // ltb.
case: (leqP k (size p)) => [lep|ltp]; last first.
  by right; rewrite commit_err // ltp orbT.
by left; rewrite commit_ok //; eexists.
Qed.

Lemma size_powers tau m : size (powers tau m) = m.+1.
Proof. by rewrite /powers /range size_map size_iota subn0 addn1. Qed.

Lemma nth_powers tau m i :
  (i <= m)%N -> nth g (powers tau m) i = smul g (tau ^+ i).
Proof.
move=> lei; rewrite /powers /range (nth_map 0%N) ?size_iota ?subn0 ?addn1 //.
by rewrite nth_iota ?add0n.
Qed.

Lemma commit_powers line tau m (P : {poly F}) :
  (size P <= m.+1)%N ->
  commit line (powers tau m) P (size P) = Ok (smul g P.[tau]).
Proof.
move=> leP; rewrite commit_ok ?size_powers //.
have -> : [seq smul (nth g (powers tau m) i) P`_i | i <- range 0 (size P)]
          = [seq smul g (tau ^+ i * P`_i) | i <- range 0 (size P)].
  apply/eq_in_map => i; rewrite mem_range /= => lti.
  by rewrite nth_powers ?smulA // -ltnS (leq_trans lti).
rewrite py_sum_smul add0r horner_coef /range -/(index_iota 0 (size P)) big_mkord.
by congr (Ok (smul g _)); apply: eq_bigr => i _; rewrite mulrC.
Qed.

(** *** Setup *)

Lemma setup_ok U n_stmt w :
  (n_stmt < ncols U)%N ->
  babysnark_setup PG U n_stmt w
  = (Ok (crs_of (rng w 0%N) (rng w 1%N) (rng w 2%N) U n_stmt), after_setup w).
Proof. by move=> lt; rewrite /babysnark_setup /= /bindM /assertM lt. Qed.

Lemma setup_err U n_stmt w :
  (ncols U <= n_stmt)%N ->
  babysnark_setup PG U n_stmt w = (Raise (AssertionError 121), w).
Proof.
by move=> le; rewrite /babysnark_setup /= /bindM /assertM ltnNge le.
Qed.

Lemma size_crs_of tau beta gamma U n_stmt :
  size (crs_of tau beta gamma U n_stmt)
  = (nrows U + 1 + 2 + (ncols U - n_stmt))%N.
Proof.
rewrite /crs_of !size_cat size_powers /= size_map size_drop size_column_polys.
by rewrite addn1 -addnA.
Qed.

(** *** The prover *)

Lemma prover_unfold U n_stmt (CRS : seq (grp PG)) a :
  size a = ncols U -> (n_stmt <= ncols U)%N ->
  Posz (size CRS) == Posz (nrows U + 1) + 2 + (Posz (ncols U) - Posz n_stmt) ->
  babysnark_prover U n_stmt CRS a
  = (assert 173 (polyseq (p_poly U a) == poly_mul (t_poly U) (h_seq U a)) ;;;
     assert 174 (size (vw_poly U n_stmt a) == nrows U) ;;;
     assert 175 (size (h_seq U a) <= nrows U)%N ;;;
     prover_tail U n_stmt CRS a).
Proof.
move=> sza len szc.
have vwE := @prover_vwE U n_stmt a; rewrite sza leqnn in vwE.
have vE := @prover_vE U n_stmt a; rewrite sza leqnn in vE.
move: (vwE isT) (vE isT len); rewrite /prover_v /prover_vw => eq_vw.
rewrite eq_vw /= => eq_v.
rewrite /babysnark_prover /= sza eqxx szc /= eq_vw /= eq_v /=.
rewrite oner_eq0 vanishing_polyE poly_mulE poly_subE Poly_1 !polyseqK.
rewrite /poly_div nil_poly (negPf (t_poly_neq0 U)) /=.
by [].
Qed.

Lemma assert173E U a :
  uniq (rs F (nrows U)) ->
  (polyseq (p_poly U a) == poly_mul (t_poly U) (h_seq U a)) = ssp U a.
Proof.
move=> urs; rewrite ssp_roots //; apply/idP/idP => [/eqP eqp|rP].
  apply: (@roots_of_multiple U _ (Poly (h_seq U a))); apply: poly_inj.
  by rewrite eqp poly_mulE polyseqK.
have [Q eqd eqPQ] := divmod_exact urs rP.
by rewrite /h_seq eqd /= poly_mulE !polyseqK -eqPQ.
Qed.

Lemma h_seq_exact U a :
  uniq (rs F (nrows U)) -> ssp U a ->
  exists2 Q : {poly F},
    poly_divmod (p_poly U a) (t_poly U) = (polyseq Q, [::])
    & p_poly U a = t_poly U * Q.
Proof. by move=> urs; rewrite ssp_roots //; apply: divmod_exact. Qed.

Lemma size_col_poly U k : (size (col_poly U k) <= nrows U)%N.
Proof.
have := size_interp_poly (rs F (nrows U)) (column U k).
by rewrite size_rs.
Qed.

Lemma size_lin_comb U a ks : (size (lin_comb U a ks) <= nrows U)%N.
Proof.
apply: size_sum_leq => k _.
by apply: leq_trans (size_scale_leq _ _) _; apply: size_col_poly.
Qed.

Lemma size_p_poly U a :
  (0 < nrows U)%N -> (size (p_poly U a) <= (nrows U + nrows U).-1)%N.
Proof.
move=> m0; apply: leq_trans (size_polyD _ _) _; rewrite geq_max size_polyN.
have le : (size (v_poly U a) <= nrows U)%N by apply: size_lin_comb.
have := size_polyMleq (v_poly U a) (v_poly U a).
rewrite (_ : size (1 : {poly F}) = 1%N) ?size_poly1 //.
move: (size (polyseq (_ * _))) (size (v_poly U a)) le => sM sV le leM.
by apply/andP; split; natlia.
Qed.

Lemma size_h_seq U a :
  uniq (rs F (nrows U)) -> ssp U a -> (0 < nrows U)%N ->
  (size (h_seq U a) < nrows U)%N.
Proof.
move=> urs sat m0; have [Q eqd eqPQ] := h_seq_exact urs sat.
rewrite /h_seq eqd /=; have [->|nzQ] := eqVneq Q 0; first by rewrite size_poly0.
have := size_p_poly a m0; rewrite eqPQ size_monicM ?t_poly_monic //.
rewrite size_t_poly; move: (size Q) => sQ le.
by natlia.
Qed.

Lemma bws_ok (bUis : seq (grp PG)) a n n_stmt :
  (n <= size a)%N -> (n - n_stmt <= size bUis)%N ->
  mapM (fun k => bk <- getitem 186 bUis (k - n_stmt) ;;
                 ak <- getitem 186 a k ;; Ok (smul bk ak))
       (range n_stmt n)
  = Ok [seq smul (nth g bUis (k - n_stmt)) a`_k | k <- range n_stmt n].
Proof.
move=> lea leb; apply: mapM_ok => k; rewrite mem_range => /andP [le_k lt_k].
rewrite (getitem_ok g) /=; first by natlia.
by rewrite (getitem_ok 0) // (leq_trans lt_k).
Qed.

Lemma size_slice_from (T : Type) (s : seq T) n n_stmt :
  (n - n_stmt <= size s)%N ->
  (n - n_stmt <= size (slice_from (- (Posz n - Posz n_stmt)) s))%N.
Proof.
move=> le; case: (ltnP n_stmt n) => [lt|ge].
  by rewrite slice_from_neg // size_drop subKn.
by move: ge; rewrite -subn_eq0 => /eqP ->.
Qed.

Lemma prover_tail_total U n_stmt (CRS : seq (grp PG)) a :
  size a = ncols U -> (n_stmt <= ncols U)%N ->
  Posz (size CRS) == Posz (nrows U + 1) + 2 + (Posz (ncols U) - Posz n_stmt) ->
  (size (h_seq U a) <= nrows U)%N -> size (vw_poly U n_stmt a) = nrows U ->
  exists pi, prover_tail U n_stmt CRS a = Ok pi.
Proof.
move=> sza len; rewrite crs_lenE => /eqP szc leh szvw.
have szt : size (take (nrows U + 1) CRS) = (nrows U + 1)%N.
  by rewrite size_takel //; natlia.
rewrite /prover_tail commit_ok ?szt /=; try by natlia.
rewrite commit_ok ?szt ?szvw //=; first by natlia.
rewrite bws_ok ?sza //=; last by eexists.
by apply: size_slice_from; natlia.
Qed.

(** *** The prover and the verifier on the CRS of Setup *)

Section OnSetupCRS.

Variables (tau beta gamma : F) (U : ndarray F) (n_stmt : nat).
Hypothesis lt_stmt : (n_stmt < ncols U)%N.

Let CRS := crs_of tau beta gamma U n_stmt.

Lemma take_crs : take (nrows U + 1) CRS = powers tau (nrows U).
Proof. by rewrite /CRS /crs_of addn1 -(size_powers tau) take_size_cat. Qed.




Lemma slice_crs :
  slice_from (- (Posz (ncols U) - Posz n_stmt)) CRS
  = [seq smul g (beta * poly_eval Ui tau) | Ui <- drop n_stmt (column_polys U)].
Proof.
rewrite slice_from_neg // size_crs_of addnK /CRS /crs_of catA.
by rewrite -[X in drop X _](_ : size (powers tau (nrows U)
      ++ [:: smul g gamma; smul g (beta * gamma)]) = _) ?drop_size_cat //
   size_cat size_powers /= addn1 addn2.
Qed.

Lemma nth_slice_crs k :
  (n_stmt <= k < ncols U)%N ->
  nth g (slice_from (- (Posz (ncols U) - Posz n_stmt)) CRS) (k - n_stmt)
  = smul g (beta * (col_poly U k).[tau]).
Proof.
case/andP=> le_k lt_k; rewrite slice_crs (nth_map [::]).
  by rewrite size_drop size_column_polys; natlia.
by rewrite nth_drop subnKC // nth_column_polys // poly_evalE polyseqK.
Qed.

Lemma prover_tail_crs a (Q : {poly F}) :
  size a = ncols U -> h_seq U a = Q ->
  (size Q <= nrows U)%N -> size (vw_poly U n_stmt a) = nrows U ->
  prover_tail U n_stmt CRS a
  = Ok (smul g Q.[tau],
        smul g (beta * (vw_poly U n_stmt a).[tau]),
        smul g (vw_poly U n_stmt a).[tau]).
Proof.
move=> sza hQ leQ szvw; rewrite /prover_tail hQ take_crs.
rewrite commit_powers /=; first exact: leqW.
rewrite -[X in commit 182 _ _ X]szvw commit_powers /=; first by rewrite szvw.
rewrite bws_ok ?sza //=; first by apply: size_slice_from; rewrite size_crs_of leq_addl.
congr (Ok (_, _, _)).
have -> : [seq smul (nth g (slice_from (- (Posz (ncols U) - Posz n_stmt)) CRS)
                       (k - n_stmt)) a`_k | k <- range n_stmt (ncols U)]
          = [seq smul g (beta * (col_poly U k).[tau] * a`_k)
            | k <- range n_stmt (ncols U)].
  apply/eq_in_map => k; rewrite mem_range => bk.
  by rewrite nth_slice_crs // smulA.
rewrite py_sum_smul add0r /vw_poly /lin_comb horner_sum mulr_sumr.
by congr (smul g _); apply: eq_bigr => k _; rewrite hornerZ; ring.
Qed.


End OnSetupCRS.

End Protocol.

(** ** Case analysis of the prover *)

Lemma mapM_cases (A B : Type) (f : A -> result B) (e : exn) (s : seq A) :
  (forall i, (exists y, f i = Ok y) \/ f i = Raise e) ->
  (exists ys, mapM f s = Ok ys) \/ mapM f s = Raise e.
Proof.
move=> fs; elim: s => [|i s IH] /=; first by left; exists [::].
case: (fs i) => [[y ->]|->] /=; last by right.
by case: IH => [[ys ->]|->] /=; [left; eexists | right].
Qed.

Lemma bws_cases (F : fieldType) (PG : pairing_group F)
  (bUis : seq (grp PG)) (a : seq F) n_stmt ks :
  (exists ys, mapM (fun k => bk <- getitem 186 bUis (k - n_stmt) ;;
                             ak <- getitem 186 a k ;; Ok (smul bk ak)) ks
              = Ok ys)
  \/ mapM (fun k => bk <- getitem 186 bUis (k - n_stmt) ;;
                    ak <- getitem 186 a k ;; Ok (smul bk ak)) ks
     = Raise (IndexError 186).
Proof.
apply: mapM_cases => k; rewrite /getitem.
case: (drop _ bUis) => [|b _] /=; first by right.
by case: (drop k a) => [|c _] /=; [right | left; eexists].
Qed.

Section Checks.

Variable F : fieldType.
Variable PG : pairing_group F.
Implicit Types (U : ndarray F) (a : seq F) (w : world F).

Lemma prover_tail_cases U n_stmt (CRS : seq (grp PG)) a :
  (exists pi, prover_tail U n_stmt CRS a = Ok pi)
  \/ (exists line, prover_tail U n_stmt CRS a = Raise (IndexError line)).
Proof.
rewrite /prover_tail /=.
set taus := take _ _; set bUis := slice_from _ _.
case: (commit_cases 178 taus (h_seq U a) (size (h_seq U a)))
  => [[H ->]|->] /=; last by right; eexists.
case: (commit_cases 182 taus (vw_poly U n_stmt a) (nrows U))
  => [[Vw ->]|->] /=; last by right; eexists.
case: (bws_cases bUis a n_stmt (range n_stmt (ncols U)))
  => [[Bws ->]|->] /=; last by right; eexists.
by left; eexists.
Qed.

Lemma prover_hE U n_stmt a :
  size a = ncols U -> (n_stmt <= ncols U)%N ->
  prover_h U n_stmt a = Ok (h_seq U a).
Proof.
move=> sza len; rewrite /prover_h prover_vE ?sza //=.
rewrite oner_eq0 vanishing_polyE poly_mulE poly_subE Poly_1 !polyseqK.
by rewrite /poly_div nil_poly (negPf (t_poly_neq0 U)).
Qed.

Lemma remainder_nonzero U a :
  uniq (rs F (nrows U)) -> ssp U a = false ->
  (poly_divmod (p_poly U a) (t_poly U)).2 <> [::].
Proof.
move=> urs unsat.
have [Q [R [eqd eqPQ _]]] := poly_divmodP (p_poly U a) (t_poly_neq0 U).
rewrite eqd /= => R0; move: unsat; rewrite ssp_roots // => /negP; apply.
apply: (@roots_of_multiple _ U _ Q); rewrite eqPQ mulrC.
have -> : R = 0 by apply: poly_inj; rewrite R0 polyseq0.
by rewrite addr0.
Qed.

End Checks.

(** ** Bounds read by the loops *)

Lemma accumulate_inv (F : fieldType) line (a : seq F) (Us : seq (seq F))
  (acc p : seq F) (ks : seq nat) :
  accumulate line a Us acc ks = Ok p ->
  {in ks, forall k, (k < size a)%N && (k < size Us)%N}.
Proof.
rewrite /accumulate; elim: ks acc => [|k ks IH] acc //=.
case: (ltnP k (size a)) => [lta|gea]; last by rewrite getitem_err.
rewrite (getitem_ok 0) //=.
case: (ltnP k (size Us)) => [ltU|geU]; last by rewrite getitem_err.
rewrite (getitem_ok [::]) //= => /IH inks j.
by rewrite in_cons => /orP [/eqP ->|/inks //]; rewrite lta ltU.
Qed.

Lemma verifier_vs_inv (F : fieldType) (w : world F) (U : ndarray F)
  (vs : poly F) :
  verifier_vs w U = Ok vs ->
  (g_n_stmt w <= minn (size (g_a w)) (ncols U))%N
  /\ vs = lin_comb U (g_a w) (range 0 (g_n_stmt w)) :> seq F.
Proof.
move=> eq_vs; have inb := accumulate_inv eq_vs.
have le : (g_n_stmt w <= minn (size (g_a w)) (ncols U))%N.
  case: leqP => // lt; have := inb (minn (size (g_a w)) (ncols U)).
  rewrite mem_range /= lt size_column_polys => /(_ isT).
  by case: (ltnP (size (g_a w)) (ncols U)) => _; rewrite ltnn ?andbF.
split=> //; move: eq_vs; rewrite /verifier_vs mkPolyE Poly_0 accumulate_cols.
  by move=> k /inb; rewrite size_column_polys.
by rewrite add0r => -[].
Qed.


(** ** The run on an instance whose polynomials have [m] coefficients *)

(** * The claims *)





(** Outside the claim as amended: on [U_flat], [a_flat] the prover's check
    passes and the verifier stops at line 221, [vs] having one
    coefficient. *)
Lemma completeness_unguarded_index :
  ssp U_flat a_flat
  /\ (run_script (exp_group F53) U_flat 1 a_flat w_lin).1
     = Raise (IndexError 221).
Proof.
by split; vm_compute.
Qed.

(** C2, as amended.  The verifier never returns [False]: whenever it
    returns, it returns [True].  Once the commitments [T] and [Vs] are
    computed, a failing first pairing check raises [AssertionError] at line
    226, a failing second check raises it at line 230, and only when both
    hold is [True] returned. *)
Theorem verifier_raises_on_mismatch (F : fieldType) (PG : pairing_group F)
  (w : world F) (U : ndarray F) (CRS : seq (grp PG)) (a_stmt : seq F)
  (H Bw Vw : grp PG) :
  (forall b, babysnark_verifier w U CRS a_stmt (H, Bw, Vw) = Ok b -> b = true)
  /\ (forall gamma gammabeta T vs Vs,
        getitem 204 CRS (nrows U + 1) = Ok gamma ->
        getitem 205 CRS (nrows U + 2) = Ok gammabeta ->
        commit 211 (take (nrows U + 1) CRS) (vanishing_poly (rs F (nrows U)))
               (nrows U + 1) = Ok T ->
        verifier_vs w U = Ok vs ->
        commit 221 (take (nrows U + 1) CRS) vs (nrows U) = Ok Vs ->
        babysnark_verifier w U CRS a_stmt (H, Bw, Vw)
        = if pair Bw gamma == pair Vw gammabeta
          then if gt_mul (pair H T) (GT PG) == pair (gadd Vs Vw) (gadd Vs Vw)
               then Ok true
               else Raise (AssertionError 230)
          else Raise (AssertionError 226)).
Proof.
rewrite /babysnark_verifier /=; split.
  move=> b; case: getitem => //= gamma; case: getitem => //= gammabeta.
  case: commit => //= T; case: verifier_vs => //= vs; case: commit => //= Vs.
  by case: (_ == _) => //=; case: (_ == _) => //= -[].
move=> gamma gammabeta T vs Vs -> -> /= -> /= -> /= -> /=.
by case: (_ == _) => //=; case: (_ == _).
Qed.

(** On [U_lin] with the forged proof, the first check fails. *)
Lemma verifier_raises_on_mismatch_witness :
  babysnark_verifier (PG := exp_group F53) w_lin U_lin crs_lin
    (take 1 a_lin) pi_forged
  = Raise (AssertionError 226).
Proof.
pose taus := take (nrows U_lin + 1) crs_lin.
pose gamma := unwrap (0 : F53) (getitem 204 crs_lin (nrows U_lin + 1)).
pose gammabeta := unwrap (0 : F53) (getitem 205 crs_lin (nrows U_lin + 2)).
pose T := unwrap (0 : F53)
  (commit (PG := exp_group F53) 211 taus
     (vanishing_poly (rs F53 (nrows U_lin))) (nrows U_lin + 1)).
pose vs := unwrap [::] (verifier_vs w_lin U_lin).
pose Vs := unwrap (0 : F53)
  (commit (PG := exp_group F53) 221 taus vs (nrows U_lin)).
have [_ chk] := @verifier_raises_on_mismatch F53 (exp_group F53) w_lin U_lin
  crs_lin (take 1 a_lin) 4%:R 24%:R 26%:R.
rewrite [LHS](chk gamma gammabeta T vs Vs); by vm_compute.
Defined.

(** C2 as stated fails: on a proof whose first pairing check fails the
    verifier raises, it does not return [False]. *)
Lemma verifier_mismatch_counterexample :
  babysnark_verifier (PG := exp_group F53) w_lin U_lin crs_lin
    (take 1 a_lin) pi_forged
  = Raise (AssertionError 226).
Proof.
by vm_compute.
Qed.

(** C3.  The verifier builds [vs] from the module-level [a] and [n_stmt],
    not from its argument [a_stmt]: with the same arguments it accepts
    under one module state and raises under another, and it accepts the
    proof for a statement that is not the prefix of the witness. *)
Lemma verifier_reads_globals :
  [/\ babysnark_verifier (PG := exp_group F53) w_lin U_lin crs_lin
        (of_nats [:: 4]%N) pi_lin = Ok true,
      babysnark_verifier (PG := exp_group F53) w_other U_lin crs_lin
        (of_nats [:: 4]%N) pi_lin = Raise (AssertionError 230)
    & babysnark_verifier (PG := exp_group F53) w_lin U_lin crs_lin
        (of_nats [:: 9]%N) pi_lin = Ok true].
Proof.
by split; vm_compute.
Qed.

(** C4, as amended.  For [n_stmt < n], Setup returns only the CRS, draws
    exactly three values from the random source, and stores them in the
    module-level variables [tau], [beta] and [gamma], where they remain
    after the call; the module-level [a] and [n_stmt] are unchanged. *)
Theorem setup_stores_trapdoor (F : fieldType) (PG : pairing_group F)
  (U : ndarray F) (n_stmt : nat) (w : world F) :
  (n_stmt < ncols U)%N ->
  let w' := (babysnark_setup PG U n_stmt w).2 in
  [/\ g_tau w' = Some (rng w 0%N),
      g_beta w' = Some (rng w 1%N),
      g_gamma w' = Some (rng w 2%N),
      g_a w' = g_a w /\ g_n_stmt w' = g_n_stmt w
    & forall i, rng w' i = rng w (i + 3)%N].
Proof.
move=> lt; rewrite setup_ok //=; split=> // i.
by rewrite addn3.
Qed.

(** Setup on [U_lin] stores 5, 7 and 11. *)
Lemma setup_stores_trapdoor_witness :
  let w' := (babysnark_setup (exp_group F53) U_lin 1 w_lin).2 in
  [/\ g_tau w' = Some (rng w_lin 0%N),
      g_beta w' = Some (rng w_lin 1%N),
      g_gamma w' = Some (rng w_lin 2%N),
      g_a w' = g_a w_lin /\ g_n_stmt w' = g_n_stmt w_lin
    & forall i, rng w' i = rng w_lin (i + 3)%N].
Proof.
by apply: setup_stores_trapdoor; vm_compute.
Defined.

(** C4 as stated fails: [tau] is unbound before Setup and bound after. *)
Lemma setup_state_counterexample :
  g_tau (babysnark_setup (exp_group F53) U_lin 1 w_lin).2 <> g_tau w_lin.
Proof.
by vm_compute.
Qed.

(** C5.  On a call with [len(a) = n], [n_stmt <= n], a CRS of the expected
    length and distinct roots: if the witness does not satisfy
    [(U.a)^2 = 1], the remainder of [p = v^2 - 1] by [t] is non-zero and the
    prover raises [AssertionError] at line 173, returning no proof; if it
    does, the remainder is zero and the assertion of line 173 passes. *)
Theorem prover_division_check (F : fieldType) (PG : pairing_group F)
  (U : ndarray F) (n_stmt : nat) (CRS : seq (grp PG)) (a : seq F) :
  size a = ncols U -> (n_stmt <= ncols U)%N ->
  Posz (size CRS) == Posz (nrows U + 1) + 2 + (Posz (ncols U) - Posz n_stmt) ->
  uniq (rs F (nrows U)) ->
  exists v : poly F,
    prover_v U n_stmt a = Ok v /\
    let p := poly_sub (poly_mul v v) (mkPoly [:: 1]) in
    let t := vanishing_poly (rs F (nrows U)) in
    if ssp U a
    then (poly_divmod p t).2 = [::]
         /\ babysnark_prover U n_stmt CRS a <> Raise (AssertionError 173)
    else (poly_divmod p t).2 <> [::]
         /\ babysnark_prover U n_stmt CRS a = Raise (AssertionError 173).
Proof.
move=> sza len szc urs; exists (v_poly U a); split.
  by rewrite prover_vE ?sza.
rewrite /= oner_eq0 vanishing_polyE poly_mulE poly_subE Poly_1 !polyseqK.
rewrite -/(p_poly U a) -/(t_poly U) prover_unfold // assert173E //.
case sat: (ssp U a) => /=; last by split=> //; apply: remainder_nonzero.
have [Q -> _] := h_seq_exact urs sat; split=> //.
case: (_ == _) => //=; case: (_ <= _)%N => //=.
by case: (prover_tail_cases U n_stmt CRS a) => [[pi ->]|[line ->]].
Qed.

(** The prover on [U_lin] with the unsatisfying witness [a_unsat]. *)
Lemma prover_division_check_witness :
  exists v : poly F53,
    prover_v U_lin 1 a_unsat = Ok v /\
    let p := poly_sub (poly_mul v v) (mkPoly [:: 1]) in
    let t := vanishing_poly (rs F53 (nrows U_lin)) in
    if ssp U_lin a_unsat
    then (poly_divmod p t).2 = [::]
         /\ babysnark_prover (PG := exp_group F53) U_lin 1 crs_lin a_unsat
            <> Raise (AssertionError 173)
    else (poly_divmod p t).2 <> [::]
         /\ babysnark_prover (PG := exp_group F53) U_lin 1 crs_lin a_unsat
            = Raise (AssertionError 173).
Proof.
have sza : size a_unsat = ncols U_lin by vm_compute.
have szc : Posz (size crs_lin)
           == Posz (nrows U_lin + 1) + 2 + (Posz (ncols U_lin) - Posz 1).
  by vm_compute.
have urs : uniq (rs F53 (nrows U_lin)) by vm_compute.
exact: (@prover_division_check F53 (exp_group F53) U_lin 1 crs_lin a_unsat
          sza isT szc urs).
Defined.

(** C6, as amended.  On a valid instance ([m >= 1], distinct roots,
    [len(a) = n], [n_stmt <= n], a CRS of the expected length, a satisfying
    witness) the quotient [h] has fewer than [m] coefficients, so the check
    of line 175 passes; the check of line 174 passes exactly when [vw] has
    exactly [m] coefficients: then the prover returns a proof, otherwise it
    raises [AssertionError] at line 174. *)
Theorem degree_check (F : fieldType) (PG : pairing_group F)
  (U : ndarray F) (n_stmt : nat) (CRS : seq (grp PG)) (a : seq F) :
  size a = ncols U -> (n_stmt <= ncols U)%N ->
  Posz (size CRS) == Posz (nrows U + 1) + 2 + (Posz (ncols U) - Posz n_stmt) ->
  uniq (rs F (nrows U)) -> (0 < nrows U)%N -> ssp U a ->
  exists vw h : poly F,
    [/\ prover_vw U n_stmt a = Ok vw,
        prover_h U n_stmt a = Ok h,
        (size h < nrows U)%N
      & if size vw == nrows U
        then exists pi, babysnark_prover U n_stmt CRS a = Ok pi
        else babysnark_prover U n_stmt CRS a = Raise (AssertionError 174)].
Proof.
move=> sza len szc urs m0 sat.
exists (vw_poly U n_stmt a), (h_seq U a).
have ltH := size_h_seq urs sat m0.
split=> //; first by rewrite prover_vwE ?sza.
  exact: prover_hE.
rewrite prover_unfold // assert173E // sat /=.
case: eqP => [szvw|//] /=; rewrite (ltnW ltH) /=.
exact: (prover_tail_total sza len szc (ltnW ltH) szvw).
Qed.

(** The prover on [U_lin], [a_lin]: [vw] has two coefficients. *)
Lemma degree_check_witness :
  exists vw h : poly F53,
    [/\ prover_vw U_lin 1 a_lin = Ok vw,
        prover_h U_lin 1 a_lin = Ok h,
        (size h < nrows U_lin)%N
      & if size vw == nrows U_lin
        then exists pi,
            babysnark_prover (PG := exp_group F53) U_lin 1 crs_lin a_lin = Ok pi
        else babysnark_prover (PG := exp_group F53) U_lin 1 crs_lin a_lin
             = Raise (AssertionError 174)].
Proof.
have sza : size a_lin = ncols U_lin by vm_compute.
have szc : Posz (size crs_lin)
           == Posz (nrows U_lin + 1) + 2 + (Posz (ncols U_lin) - Posz 1).
  by vm_compute.
have urs : uniq (rs F53 (nrows U_lin)) by vm_compute.
have sat : ssp U_lin a_lin by vm_compute.
exact: (@degree_check F53 (exp_group F53) U_lin 1 crs_lin a_lin
          sza isT szc urs isT sat).
Defined.

(** C6 as stated fails: on [U_const], [a_const] the witness satisfies the
    constraints, [vw] has one coefficient (degree below [m = 2]) and [h] is
    zero, yet the check of line 174 fails. *)
Lemma degree_check_counterexample :
  [/\ ssp U_const a_const,
      coeff_count (prover_vw U_const 1 a_const) = Some 1%N,
      coeff_count (prover_h U_const 1 a_const) = Some 0%N
    & babysnark_prover (PG := exp_group F53) U_const 1 crs_lin a_const
      = Raise (AssertionError 174)].
Proof.
by split; vm_compute.
Qed.

(** C7.  For [n_stmt < n], Setup returns a CRS of exactly
    [(m+1) + 2 + (n - n_stmt)] group elements: [G * tau^i] for [i = 0..m],
    then [G * gamma], then [G * (beta * gamma)], then, for each column [k]
    from [n_stmt] to [n-1], [G * (beta * U_k(tau))], where [U_k] has at most
    [m] coefficients and, the roots [1..m] being distinct in the field,
    takes the value [U[i,k]] at the root [1 + i] of every row [i]; [tau],
    [beta], [gamma] are the three values drawn from the random source. *)
Theorem crs_layout (F : fieldType) (PG : pairing_group F)
  (U : ndarray F) (n_stmt : nat) (w : world F) :
  (n_stmt < ncols U)%N ->
  let m := nrows U in
  let n := ncols U in
  let tau := rng w 0%N in
  let beta := rng w 1%N in
  let gamma := rng w 2%N in
  exists CRS : seq (grp PG),
    [/\ (babysnark_setup PG U n_stmt w).1 = Ok CRS,
        size CRS = ((m + 1) + 2 + (n - n_stmt))%N,
        forall i, (i <= m)%N -> nth (G PG) CRS i = smul (G PG) (tau ^+ i),
        nth (G PG) CRS (m + 1) = smul (G PG) gamma
        /\ nth (G PG) CRS (m + 2) = smul (G PG) (beta * gamma)
      & forall k, (n_stmt <= k < n)%N ->
          exists Uk : poly F,
            [/\ nth (G PG) CRS (m + 3 + (k - n_stmt))
                = smul (G PG) (beta * poly_eval Uk tau),
                (size (coefficients Uk) <= m)%N
              & uniq [seq (1 + i)%:R : F | i <- iota 0 m] ->
                forall i, (i < m)%N ->
                  poly_eval Uk (1 + i)%:R = entry U i k]].
Proof.
move=> lt m n tau beta gamma; rewrite setup_ok //=.
exists (crs_of PG tau beta gamma U n_stmt); split=> //.
- exact: size_crs_of.
- move=> i lei; rewrite /crs_of nth_cat size_powers ltnS lei.
  exact: nth_powers.
- rewrite /crs_of !nth_cat size_powers addn1 ltnn subnn /= addn2.
  by rewrite ltnNge leqnSn /= subSnn.
move=> k /andP [le_k lt_k]; exists (polyseq (col_poly U k)); split.
- rewrite /crs_of catA nth_cat size_cat size_powers /=.
  have -> : (m + 3 + (k - n_stmt) = m.+1 + 2 + (k - n_stmt))%N by natlia.
  rewrite ltnNge leq_addr /= addKn (nth_map [::]).
    by rewrite size_drop size_column_polys; natlia.
  by rewrite nth_drop subnKC // nth_column_polys.
- exact: size_col_poly.
move=> urs i lti; rewrite poly_evalE polyseqK -(nth_rs F lti).
by apply: col_poly_eval => //; rewrite /rs /range subn0.
Qed.

(** For [m = 10], [n = 6], [n_stmt = 4] the CRS has 15 elements, and the
    two last ones commit to the polynomials through the entries of columns
    4 and 5. *)
Lemma crs_layout_witness :
  exists CRS : seq (grp (exp_group F53)),
    [/\ (babysnark_setup (exp_group F53) U_script 4 w_lin).1 = Ok CRS,
        size CRS = 15%N
      & forall k, (4 <= k < 6)%N ->
          exists Uk : poly F53,
            [/\ nth (G (exp_group F53)) CRS (13 + (k - 4))
                = smul (G (exp_group F53))
                    (rng w_lin 1%N * poly_eval Uk (rng w_lin 0%N)),
                (size (coefficients Uk) <= 10)%N
              & forall i, (i < 10)%N ->
                  poly_eval Uk (1 + i)%:R = entry U_script i k]].
Proof.
have [//|CRS [eqc szc _ _ cols]] :=
  @crs_layout F53 (exp_group F53) U_script 4 w_lin.
exists CRS; split=> // k /cols [Uk [eqk szk evk]].
by exists Uk; split=> //; apply: evk; vm_compute.
Defined.

(** C8.  When [n_stmt >= n], Setup raises [AssertionError] at line 121 and
    leaves the program state as it was: no value is drawn from the random
    source, no module-level variable is written and there is no CRS.  When
    [n_stmt < n] it returns a CRS. *)
Theorem setup_split_check (F : fieldType) (PG : pairing_group F)
  (U : ndarray F) (n_stmt : nat) (w : world F) :
  if (n_stmt < ncols U)%N
  then exists CRS w', babysnark_setup PG U n_stmt w = (Ok CRS, w')
  else babysnark_setup PG U n_stmt w = (Raise (AssertionError 121), w).
Proof.
case: ltnP => [lt|le]; last exact: setup_err.
by rewrite setup_ok //; eexists; eexists.
Qed.

(** C9.  When the CRS does not have length [(m+1) + 2 + (n - n_stmt)],
    the prover raises [AssertionError] before any other computation: at line
    146, or at line 145 when [len(a)] differs from [n].  When the length
    matches, the assertion of line 146 does not fail. *)
Theorem prover_crs_length_check (F : fieldType) (PG : pairing_group F)
  (U : ndarray F) (n_stmt : nat) (CRS : seq (grp PG)) (a : seq F) :
  let expected := Posz (nrows U + 1) + 2 + (Posz (ncols U) - Posz n_stmt) in
  (Posz (size CRS) != expected ->
   babysnark_prover U n_stmt CRS a
   = Raise (AssertionError (if ncols U == size a then 146 else 145)))
  /\ (Posz (size CRS) == expected ->
      babysnark_prover U n_stmt CRS a <> Raise (AssertionError 146)).
Proof.
move=> expected; rewrite /babysnark_prover /=; split.
  by move=> /negPf ->; case: eqP.
move=> ->; case: eqP => //= _.
set Us := column_polys U; set taus := take _ _; set bUis := slice_from _ _.
case: (accumulate_cases 161 a Us (mkPoly [:: 0]) (range n_stmt (ncols U)))
  => [[vw ->]|->] //=.
case: (accumulate_cases 166 a Us vw (range 0 n_stmt)) => [[v ->]|->] //=.
rewrite /poly_div; case: nilp => //=; set h := (poly_divmod _ _).1.
case: (_ == _) => //=; case: (_ == _) => //=; case: (_ <= _)%N => //=.
case: (commit_cases 178 taus h (size h)) => [[H ->]|->] //=.
case: (commit_cases 182 taus vw (nrows U)) => [[Vw ->]|->] //=.
by case: (bws_cases bUis a n_stmt (range n_stmt (ncols U))) => [[Bws ->]|->].
Qed.

(** A CRS of five elements where six are expected. *)
Lemma prover_crs_length_check_witness :
  babysnark_prover (PG := exp_group F53) U_lin 1 (take 5 crs_lin) a_lin
  = Raise (AssertionError 146).
Proof.
have [bad _] := @prover_crs_length_check F53 (exp_group F53) U_lin 1
  (take 5 crs_lin) a_lin.
by rewrite bad.
Defined.

(** C10.  When the statement polynomial [vs] has fewer than [m]
    coefficients, the verifier raises [IndexError]: at line 221, where it
    reads [vs.coefficients[i]] for [i] below [m], unless the CRS has fewer
    than [m + 3] elements and lines 204 or 205 raised it before. *)
Theorem verifier_short_statement_poly (F : fieldType) (PG : pairing_group F)
  (w : world F) (U : ndarray F) (CRS : seq (grp PG)) (a_stmt : seq F)
  (pi : grp PG * grp PG * grp PG) (k : nat) :
  coeff_count (verifier_vs w U) = Some k -> (k < nrows U)%N ->
  babysnark_verifier w U CRS a_stmt pi
  = Raise (IndexError (if (size CRS <= nrows U + 1)%N then 204
                       else if (size CRS <= nrows U + 2)%N then 205
                       else 221)).
Proof.
case: pi => [[H Bw] Vw].
case eq_vs: (verifier_vs w U) => [vs|//] /= -[<-] short.
rewrite /babysnark_verifier /=.
case: leqP => [le1|lt1]; first by rewrite getitem_err.
rewrite (getitem_ok (G PG)) //=.
case: leqP => [le2|lt2]; first by rewrite getitem_err.
rewrite (getitem_ok (G PG)) //= vanishing_polyE.
rewrite commit_ok ?size_t_poly ?size_takel ?addn1 //=; try by natlia.
by rewrite eq_vs /= commit_err // short orbT.
Qed.

(** On [U_const] with the statement [3], [vs] has one coefficient. *)
Lemma verifier_short_statement_poly_witness :
  babysnark_verifier (PG := exp_group F53) w_const U_const crs_lin
    (take 1 a_const) pi_lin
  = Raise (IndexError 221).
Proof.
by rewrite (@verifier_short_statement_poly _ _ _ _ _ _ _ 1).
Defined.

(** * Further properties of the code *)

(** ** The vanishing polynomial *)

(** X1.  [vanishing_poly(S)] is zero at [x] exactly when [x] is one of the
    points of [S]. *)
Theorem vanishing_poly_roots (F : fieldType) (S : seq F) (x : F) :
  (poly_eval (vanishing_poly S) x == 0) = (x \in S).
Proof.
by rewrite poly_evalE vanishing_polyE polyseqK -rootE /vanishing root_prod_XsubC.
Qed.

(** X2.  [vanishing_poly(S)] has [len(S) + 1] coefficients and leading
    coefficient one; on the empty list it is the constant one. *)
Theorem vanishing_poly_monic (F : fieldType) (S : seq F) :
  size (coefficients (vanishing_poly S)) = (size S).+1
  /\ last 0 (coefficients (vanishing_poly S)) = 1.
Proof.
rewrite /coefficients vanishing_polyE last_lead_coef /vanishing.
by rewrite size_prod_XsubC (monicP (monic_prod_XsubC _ _ _)).
Qed.

(** X3.  The vanishing polynomial of a concatenation is the product of the
    vanishing polynomials. *)
Theorem vanishing_poly_cat (F : fieldType) (S1 S2 : seq F) :
  vanishing_poly (S1 ++ S2)
  = poly_mul (vanishing_poly S1) (vanishing_poly S2).
Proof.
by rewrite poly_mulE !vanishing_polyE !polyseqK /vanishing big_cat.
Qed.

(** X4.  The vanishing polynomial does not depend on the order of the
    points. *)
Theorem vanishing_poly_perm (F : fieldType) (S1 S2 : seq F) :
  perm_eq S1 S2 -> vanishing_poly S1 = vanishing_poly S2.
Proof.
by move=> p12; rewrite !vanishing_polyE /vanishing (perm_big _ p12).
Qed.

(** The roots [1, 2, 3] in another order. *)
Lemma vanishing_poly_perm_witness :
  vanishing_poly (of_nats [:: 1; 2; 3]%N)
  = vanishing_poly (of_nats [:: 3; 1; 2]%N).
Proof.
by apply: vanishing_poly_perm; vm_compute.
Defined.

(** ** The prover *)

Lemma prover_raises_166 (F : fieldType) (PG : pairing_group F)
  (U : ndarray F) (n_stmt : nat) (CRS : seq (grp PG)) (a : seq F) :
  size a = ncols U -> (ncols U < n_stmt)%N ->
  Posz (size CRS) == Posz (nrows U + 1) + 2 + (Posz (ncols U) - Posz n_stmt) ->
  babysnark_prover U n_stmt CRS a = Raise (IndexError 166).
Proof.
move=> sza gt szc; rewrite /babysnark_prover /= sza eqxx szc /=.
have -> : range n_stmt (ncols U) = [::].
  by rewrite /range (_ : (ncols U - n_stmt)%N = 0%N) //; apply/eqP; rewrite subn_eq0 ltnW.
rewrite /accumulate /= -/(accumulate 166 a (column_polys U) _ _).
case: (accumulate_cases 166 a (column_polys U) (mkPoly [:: 0]) (range 0 n_stmt))
  => [[v eq_v]|-> //].
have := accumulate_inv eq_v (x := ncols U).
by rewrite mem_range /= gt sza ltnn => /(_ isT).
Qed.

(** X5.  The prover does not assert [n_stmt <= n]: with [len(a) = n], a
    CRS of the expected length and [n_stmt > n], both assertions pass and
    the loop of line 165 raises [IndexError] at line 166. *)
Theorem prover_split_too_large (F : fieldType) (PG : pairing_group F)
  (U : ndarray F) (n_stmt : nat) (CRS : seq (grp PG)) (a : seq F) :
  size a = ncols U -> (ncols U < n_stmt)%N ->
  Posz (size CRS) == Posz (nrows U + 1) + 2 + (Posz (ncols U) - Posz n_stmt) ->
  babysnark_prover U n_stmt CRS a = Raise (IndexError 166).
Proof.
exact: prover_raises_166.
Qed.

(** With one row, one column and [n_stmt = 2], a CRS of three elements. *)
Lemma prover_split_too_large_witness :
  babysnark_prover (PG := exp_group F53)
    (of_rows 1 1 [:: [:: 1%N]]) 2 (of_nats [:: 1; 5; 11]%N) (of_nats [:: 1]%N)
  = Raise (IndexError 166).
Proof.
by apply: prover_split_too_large; vm_compute.
Defined.

Lemma prover_ok_pre (F : fieldType) (PG : pairing_group F)
  (U : ndarray F) (n_stmt : nat) (CRS : seq (grp PG)) (a : seq F) pi :
  babysnark_prover U n_stmt CRS a = Ok pi ->
  [/\ size a = ncols U, (n_stmt <= ncols U)%N
    & Posz (size CRS)
      == Posz (nrows U + 1) + 2 + (Posz (ncols U) - Posz n_stmt)].
Proof.
move=> ok.
have sza : size a = ncols U.
  by move: ok; rewrite /babysnark_prover /=; case: eqP.
have szc : Posz (size CRS)
           == Posz (nrows U + 1) + 2 + (Posz (ncols U) - Posz n_stmt).
  by move: ok; rewrite /babysnark_prover /= sza eqxx /=; case: (_ == _).
split=> //; case: leqP => // gt.
by move: ok; rewrite (prover_raises_166 sza gt szc).
Qed.

Lemma prover_ok_inv (F : fieldType) (PG : pairing_group F)
  (U : ndarray F) (n_stmt : nat) (CRS : seq (grp PG)) (a : seq F)
  (pi : grp PG * grp PG * grp PG) :
  uniq (rs F (nrows U)) ->
  babysnark_prover U n_stmt CRS a = Ok pi ->
  [/\ ssp U a, size a = ncols U, (n_stmt <= ncols U)%N,
      Posz (size CRS)
      == Posz (nrows U + 1) + 2 + (Posz (ncols U) - Posz n_stmt)
    & size (vw_poly U n_stmt a) = nrows U].
Proof.
move=> urs ok; have [sza len szc] := prover_ok_pre ok.
move: ok; rewrite prover_unfold // assert173E //.
by case sat: (ssp U a) => //=; case: eqP.
Qed.

(** X6.  The prover returns a proof only for a satisfying witness: when it
    returns, [(U.a)^2 = 1] holds, [len(a) = n], [n_stmt <= n], the CRS has the
    expected length and [vw] has exactly [m] coefficients. *)
Theorem prover_proof_valid (F : fieldType) (PG : pairing_group F)
  (U : ndarray F) (n_stmt : nat) (CRS : seq (grp PG)) (a : seq F)
  (pi : grp PG * grp PG * grp PG) :
  uniq (rs F (nrows U)) ->
  babysnark_prover U n_stmt CRS a = Ok pi ->
  [/\ ssp U a, size a = ncols U, (n_stmt <= ncols U)%N,
      Posz (size CRS)
      = Posz (nrows U + 1) + 2 + (Posz (ncols U) - Posz n_stmt)
    & coeff_count (prover_vw U n_stmt a) = Some (nrows U)].
Proof.
move=> urs ok; have [sat sza len /eqP szc szvw] := prover_ok_inv urs ok.
by split=> //; rewrite prover_vwE ?sza //= -/(vw_poly U n_stmt a) szvw.
Qed.

(** The proof of the prover on [U_lin], [a_lin]. *)
Lemma prover_proof_valid_witness :
  [/\ ssp U_lin a_lin, size a_lin = ncols U_lin, (1 <= ncols U_lin)%N,
      Posz (size crs_lin)
      = Posz (nrows U_lin + 1) + 2 + (Posz (ncols U_lin) - Posz 1)
    & coeff_count (prover_vw U_lin 1 a_lin) = Some (nrows U_lin)].
Proof.
have urs : uniq (rs F53 (nrows U_lin)) by vm_compute.
pose pi := unwrap (0, 0, 0)
  (babysnark_prover (PG := exp_group F53) U_lin 1 crs_lin a_lin).
have ok : babysnark_prover (PG := exp_group F53) U_lin 1 crs_lin a_lin = Ok pi.
  by vm_compute.
exact: (prover_proof_valid urs ok).
Defined.

(** X7.  With no gate ([m = 0]) the prover cannot produce a proof: on a
    call that passes lines 145-146, with [n_stmt <= n], the quotient is the
    constant [-1], which has one coefficient, and the assertion of line 175
    fails. *)
Theorem prover_no_gates (F : fieldType) (PG : pairing_group F)
  (U : ndarray F) (n_stmt : nat) (CRS : seq (grp PG)) (a : seq F) :
  nrows U = 0%N -> size a = ncols U -> (n_stmt <= ncols U)%N ->
  Posz (size CRS) == Posz (nrows U + 1) + 2 + (Posz (ncols U) - Posz n_stmt) ->
  babysnark_prover U n_stmt CRS a = Raise (AssertionError 175).
Proof.
move=> m0 sza len szc.
have urs : uniq (rs F (nrows U)) by rewrite m0.
have sat : ssp U a by rewrite /ssp m0.
have vw0 : size (vw_poly U n_stmt a) = nrows U.
  by apply/eqP; rewrite eqn_leq size_lin_comb m0.
have v0 : v_poly U a = 0.
  by apply/eqP; rewrite -size_poly_leq0 -m0 size_lin_comb.
have t1 : t_poly U = 1 by rewrite /t_poly /vanishing m0 /rs /range /= big_nil.
have [Q eqd] := h_seq_exact urs sat.
rewrite /p_poly v0 mul0r add0r t1 mul1r => eqQ.
rewrite prover_unfold // assert173E // sat vw0 eqxx /=.
by rewrite /h_seq eqd /= -eqQ size_polyN size_poly1 m0.
Qed.

(** No row, one column. *)
Lemma prover_no_gates_witness :
  babysnark_prover (PG := exp_group F53)
    (Ndarray 0 1 (fun _ _ => 0 : F53)) 0 (of_nats [:: 1; 11; 24; 0]%N)
    (of_nats [:: 1]%N)
  = Raise (AssertionError 175).
Proof.
by apply: prover_no_gates; vm_compute.
Defined.

(** X8.  The polynomial [v] of the prover takes at root [1 + i] the value
    of row [i] of [U.dot(a)], for distinct roots. *)
Theorem prover_v_interpolates (F : fieldType) (U : ndarray F) (n_stmt : nat)
  (a : seq F) :
  size a = ncols U -> (n_stmt <= ncols U)%N -> uniq (rs F (nrows U)) ->
  exists2 v : poly F,
    prover_v U n_stmt a = Ok v
    & forall i, (i < nrows U)%N -> poly_eval v (1 + i)%:R = dot U a i.
Proof.
move=> sza len urs; exists (v_poly U a); first by rewrite prover_vE ?sza.
by move=> i lti; rewrite poly_evalE polyseqK -(nth_rs F lti) v_poly_eval.
Qed.

(** On [U_lin], [a_lin]: [v(1) = 1] and [v(2) = -1]. *)
Lemma prover_v_interpolates_witness :
  exists2 v : poly F53,
    prover_v U_lin 1 a_lin = Ok v
    & forall i, (i < nrows U_lin)%N ->
        poly_eval v (1 + i)%:R = dot U_lin a_lin i.
Proof.
by apply: prover_v_interpolates; vm_compute.
Defined.

(** X9.  When the module-level [a] and [n_stmt] are those of the prover's
    call, the statement polynomial [vs] of the verifier and the witness
    polynomial [vw] of the prover add up to the prover's [v]. *)
Theorem statement_witness_split (F : fieldType) (U : ndarray F)
  (n_stmt : nat) (a : seq F) (w : world F) :
  size a = ncols U -> (n_stmt <= ncols U)%N ->
  g_a w = a -> g_n_stmt w = n_stmt ->
  exists vs vw v : poly F,
    [/\ verifier_vs w U = Ok vs, prover_vw U n_stmt a = Ok vw,
        prover_v U n_stmt a = Ok v & poly_add vs vw = v].
Proof.
move=> sza len ga gn.
exists (lin_comb U a (range 0 n_stmt)), (vw_poly U n_stmt a), (v_poly U a).
split; last 1 first.
- rewrite poly_addE !polyseqK /v_poly (range_cat (leq0n n_stmt) len).
  by rewrite /lin_comb big_cat.
- rewrite /verifier_vs ga gn mkPolyE Poly_0 accumulate_cols ?add0r //.
  move=> k; rewrite mem_range /= => ltk.
  by rewrite sza !(leq_trans ltk len).
- by rewrite prover_vwE ?sza.
by rewrite prover_vE ?sza.
Qed.

(** On [U_lin] with the module state [w_lin]. *)
Lemma statement_witness_split_witness :
  exists vs vw v : poly F53,
    [/\ verifier_vs w_lin U_lin = Ok vs, prover_vw U_lin 1 a_lin = Ok vw,
        prover_v U_lin 1 a_lin = Ok v & poly_add vs vw = v].
Proof.
by apply: statement_witness_split; vm_compute.
Defined.

(** X10.  The assertions that lines 183, 187 and 189 leave as comments hold:
    on the CRS of Setup, with trapdoor [tau], [beta], a proof [(H, Bw, Vw)]
    returned by the prover has [Vw = G * vw(tau)],
    [Bw = G * (beta * vw(tau))] and [H = G * h(tau)], and
    [H.pair(T) * GT == V.pair(V)] for [T = G * t(tau)] and
    [V = G * v(tau)]. *)
Theorem prover_commitments (F : fieldType) (PG : pairing_group F)
  (U : ndarray F) (n_stmt : nat) (a : seq F) (w : world F)
  (CRS : seq (grp PG)) (H Bw Vw : grp PG) :
  uniq (rs F (nrows U)) ->
  (babysnark_setup PG U n_stmt w).1 = Ok CRS ->
  babysnark_prover U n_stmt CRS a = Ok (H, Bw, Vw) ->
  let tau := rng w 0%N in
  let beta := rng w 1%N in
  let t := vanishing_poly (rs F (nrows U)) in
  exists vw v h : poly F,
    [/\ prover_vw U n_stmt a = Ok vw,
        prover_v U n_stmt a = Ok v,
        prover_h U n_stmt a = Ok h,
        [/\ Vw = smul (G PG) (poly_eval vw tau),
            Bw = smul (G PG) (beta * poly_eval vw tau)
          & H = smul (G PG) (poly_eval h tau)]
      & gt_mul (pair H (smul (G PG) (poly_eval t tau))) (GT PG)
        = pair (smul (G PG) (poly_eval v tau))
               (smul (G PG) (poly_eval v tau))].
Proof.
move=> urs eqc ok tau beta t; move: eqc ok.
case: (ltnP n_stmt (ncols U)) => [lt|ge]; last by rewrite setup_err.
rewrite setup_ok //= => -[<-] ok.
have [sat sza len szc szvw] := prover_ok_inv urs ok.
have [Q eqd eqPQ] := h_seq_exact urs sat.
have hQ : h_seq U a = Q by rewrite /h_seq eqd.
exists (vw_poly U n_stmt a), (v_poly U a), (h_seq U a).
move: ok; rewrite prover_unfold // assert173E // sat szvw eqxx /=.
case: leqP => //= leh.
rewrite hQ in leh *.
rewrite (prover_tail_crs PG _ _ _ lt sza hQ leh szvw) => -[<- <- <-].
rewrite !poly_evalE !polyseqK /t vanishing_polyE polyseqK -/(t_poly U).
split=> //; first by rewrite prover_vwE ?sza.
- by rewrite prover_vE ?sza.
- by rewrite prover_hE // hQ.
rewrite !pair_smul /GT -[X in gt_mul _ X](gt_pow1 (pair (G PG) (G PG))).
rewrite gt_powD; congr (gt_pow _ _).
have := congr1 (fun P : {poly F} => P.[tau]) eqPQ.
rewrite /p_poly hornerD hornerN hornerC !hornerM => eqv.
by rewrite mulrC -eqv subrK.
Qed.

(** The proof of the prover on [U_lin], [a_lin] and the CRS of Setup. *)
Lemma prover_commitments_witness :
  let tau := rng w_lin 0%N in
  let beta := rng w_lin 1%N in
  let t := vanishing_poly (rs F53 (nrows U_lin)) in
  let G0 := G (exp_group F53) in
  let H : grp (exp_group F53) := pi_lin.1.1 in
  let Bw : grp (exp_group F53) := pi_lin.1.2 in
  let Vw : grp (exp_group F53) := pi_lin.2 in
  exists vw v h : poly F53,
    [/\ prover_vw U_lin 1 a_lin = Ok vw,
        prover_v U_lin 1 a_lin = Ok v,
        prover_h U_lin 1 a_lin = Ok h,
        [/\ Vw = smul G0 (poly_eval vw tau),
            Bw = smul G0 (beta * poly_eval vw tau)
          & H = smul G0 (poly_eval h tau)]
      & gt_mul (pair H (smul G0 (poly_eval t tau))) (GT (exp_group F53))
        = pair (smul G0 (poly_eval v tau)) (smul G0 (poly_eval v tau))].
Proof.
have urs : uniq (rs F53 (nrows U_lin)) by vm_compute.
pose CRS := unwrap [::] (babysnark_setup (exp_group F53) U_lin 1 w_lin).1.
have eqc : (babysnark_setup (exp_group F53) U_lin 1 w_lin).1 = Ok CRS.
  by vm_compute.
have ok : babysnark_prover (PG := exp_group F53) U_lin 1 CRS a_lin
          = Ok (pi_lin.1.1, pi_lin.1.2, pi_lin.2).
  have -> : babysnark_prover (PG := exp_group F53) U_lin 1 CRS a_lin
            = Ok (unwrap (0, 0, 0)
                 (babysnark_prover (PG := exp_group F53) U_lin 1 CRS a_lin)).
    by vm_compute.
  by congr Ok; apply/eqP; vm_compute.
exact: (prover_commitments urs eqc ok).
Defined.

(** X15.  The witness polynomial [vw] never has more than [m]
    coefficients, so the assertion of line 174 can only fail because [vw]
    has fewer than [m]. *)
Theorem prover_vw_bound (F : fieldType) (U : ndarray F) (n_stmt : nat)
  (a : seq F) :
  size a = ncols U ->
  exists2 vw : poly F,
    prover_vw U n_stmt a = Ok vw
    & (size (coefficients vw) <= nrows U)%N.
Proof.
move=> sza; exists (vw_poly U n_stmt a); first by rewrite prover_vwE ?sza.
exact: size_lin_comb.
Qed.

(** On [U_const], [a_const]: one coefficient, two gates. *)
Lemma prover_vw_bound_witness :
  exists2 vw : poly F53,
    prover_vw U_const 1 a_const = Ok vw
    & (size (coefficients vw) <= nrows U_const)%N.
Proof.
by apply: prover_vw_bound; vm_compute.
Defined.

(** ** The verifier *)

(** X11.  The verifier takes the split from the module-level [n_stmt]:
    when that exceeds the number of columns, or the length of the
    module-level [a], a CRS long enough to be parsed makes the loop of line
    218 raise [IndexError] at line 219, whatever the arguments [a_stmt] and
    [pi]. *)
Theorem verifier_split_out_of_range (F : fieldType) (PG : pairing_group F)
  (w : world F) (U : ndarray F) (CRS : seq (grp PG)) (a_stmt : seq F)
  (pi : grp PG * grp PG * grp PG) :
  (nrows U + 3 <= size CRS)%N ->
  (minn (size (g_a w)) (ncols U) < g_n_stmt w)%N ->
  babysnark_verifier w U CRS a_stmt pi = Raise (IndexError 219).
Proof.
case: pi => [[H Bw] Vw] szc gt; rewrite /babysnark_verifier /=.
rewrite (getitem_ok (G PG)) /=; first by natlia.
rewrite (getitem_ok (G PG)) /=; first by natlia.
rewrite vanishing_polyE commit_ok ?size_t_poly ?size_takel ?addn1 //=;
  try by natlia.
case eq_vs: (verifier_vs w U) => [vs|e] /=.
  by have [] := verifier_vs_inv eq_vs; rewrite leqNgt gt.
by move: eq_vs; rewrite /verifier_vs;
   case: (accumulate_cases 219 (g_a w) (column_polys U) (mkPoly [:: 0])
            (range 0 (g_n_stmt w))) => [[p ->]|->] // [<-].
Qed.

(** [U_lin] has two columns; the module-level [n_stmt] is three. *)
Lemma verifier_split_out_of_range_witness :
  babysnark_verifier (PG := exp_group F53)
    (World rng0 None None None a_lin 3) U_lin crs_lin (take 1 a_lin) pi_lin
  = Raise (IndexError 219).
Proof.
by apply: verifier_split_out_of_range; vm_compute.
Defined.



(** X13.  The verifier returns [True] only if the CRS has at least [m + 3]
    elements, the statement polynomial built from the module-level [a] and
    [n_stmt] has exactly [m] coefficients, and
    [Bw.pair(CRS[m+1]) == Vw.pair(CRS[m+2])]. *)
Theorem verifier_accepts_only_if (F : fieldType) (PG : pairing_group F)
  (w : world F) (U : ndarray F) (CRS : seq (grp PG)) (a_stmt : seq F)
  (H Bw Vw : grp PG) :
  babysnark_verifier w U CRS a_stmt (H, Bw, Vw) = Ok true ->
  [/\ (nrows U + 3 <= size CRS)%N,
      coeff_count (verifier_vs w U) = Some (nrows U)
    & pair Bw (nth (G PG) CRS (nrows U + 1))
      = pair Vw (nth (G PG) CRS (nrows U + 2))].
Proof.
rewrite /babysnark_verifier /=.
case: (ltnP (nrows U + 1) (size CRS)) => [lt1|ge1]; last by rewrite getitem_err.
rewrite (getitem_ok (G PG)) //=.
case: (ltnP (nrows U + 2) (size CRS)) => [lt2|ge2]; last by rewrite getitem_err.
rewrite (getitem_ok (G PG)) //= vanishing_polyE.
rewrite commit_ok ?size_t_poly ?size_takel ?addn1 //=; try by natlia.
case eq_vs: (verifier_vs w U) => [vs|//] /=.
have [_ vsE] := verifier_vs_inv eq_vs.
case: (leqP (nrows U) (size vs)) => [ge|lt]; last first.
  by rewrite commit_err // lt orbT.
rewrite commit_ok ?size_takel //=; try by natlia.
case: eqP => //= chk1 _; split=> //; first by natlia.
congr Some; apply/eqP; rewrite eqn_leq ge andbT vsE.
exact: size_lin_comb.
Qed.

(** The verifier accepts [pi_lin] on [U_lin]. *)
Lemma verifier_accepts_only_if_witness :
  [/\ (nrows U_lin + 3 <= size crs_lin)%N,
      coeff_count (verifier_vs w_lin U_lin) = Some (nrows U_lin)
    & pair (p := exp_group F53) pi_lin.1.2
        (nth (G (exp_group F53)) crs_lin (nrows U_lin + 1))
      = pair (p := exp_group F53) pi_lin.2
          (nth (G (exp_group F53)) crs_lin (nrows U_lin + 2))].
Proof.
apply: (@verifier_accepts_only_if F53 (exp_group F53) w_lin U_lin crs_lin
          (take 1 a_lin) pi_lin.1.1).
by vm_compute.
Defined.

(** ** Instance generation *)

Lemma dot_normalize_rows (F : fieldType) (sqrt : F -> F) (U : ndarray F)
  (a : seq F) (i : nat) :
  (i < nrows U)%N ->
  dot (normalize_rows sqrt U a) a i
  = dot U a i / sqrt (dot U a i * dot U a i).
Proof.
move=> lti; set s := sqrt _.
rewrite dotE [dot U a i]dotE mulr_suml; apply: eq_big_seq => k.
by rewrite mem_range /= lti => ->; rewrite mulrAC.
Qed.

(** X14.  Normalising the rows yields a solved instance: when no row of
    [U.dot(a)] is zero and [sqrt] returns a square root of each
    [Ua2[i]], the assertion of line 105 holds and the normalised matrix is
    returned with [a]. *)
Theorem solve_instance_ok (F : fieldType) (sqrt : F -> F) (U : ndarray F)
  (a : seq F) :
  all (fun i => let d2 := dot U a i * dot U a i in
                (d2 != 0) && (sqrt d2 * sqrt d2 == d2))
      (range 0 (nrows U)) ->
  solve_instance sqrt U a = Ok (normalize_rows sqrt U a, a)
  /\ ssp (normalize_rows sqrt U a) a.
Proof.
move=> /allP ok.
have sat : ssp (normalize_rows sqrt U a) a.
  apply/allP => i iin; have /= /andP [nz /eqP sq] := ok i iin.
  move: iin; rewrite mem_range /= => lti.
  rewrite dot_normalize_rows // mulrACA -invfM sq.
  by rewrite divff.
by rewrite /solve_instance sat.
Qed.

(** [U_raw.a_raw = (4, 9)], with square roots found by search. *)
Lemma solve_instance_ok_witness :
  solve_instance sqrt53 U_raw a_raw = Ok (normalize_rows sqrt53 U_raw a_raw, a_raw)
  /\ ssp (normalize_rows sqrt53 U_raw a_raw) a_raw.
Proof.
by apply: solve_instance_ok; vm_compute.
Defined.
